(** * Scroll-video composition engine of [src/videoGenerator.ts]

    A shallow embedding of [generateScrollingScriptVideo]: the text layout
    (paragraph splitting, word packing, complexity scoring), the duration
    allocation and the text of the scroll expression built by
    [generateScrollExpression], and the temp-file bookkeeping around the two
    encoder calls; then of the slide mode of the same file and of the route
    that starts a job.

    Numbers.  A JavaScript number is an IEEE 754 binary64 value.  Two
    models are used.  [Num.number] is an exact rational extended with the
    two infinities and NaN, with the IEEE rules for division by zero and
    for non-finite values and an unsigned zero; it carries the statements
    that rest on order, sign, zero and NaN only, which rounding to nearest
    preserves.  [Binary64] is the binary64 arithmetic itself (round to
    nearest, ties to even), in which the durations are computed as the
    code computes them; what is said about sums being met or missed is
    said there.

    Strings.  A JavaScript string is a list of UTF-16 code units.  The
    scroll expression is a template literal: its text is kept as the list
    of its literal pieces and of the numbers interpolated between them. *)

From Stdlib Require Import List ZArith QArith Qround Lqa Lia String Ascii
  Bool SpecFloat.
From stdpp Require Import gmap strings.
Import ListNotations.

Local Open Scope Z_scope.

(** ** Strings *)

Module JsString.

Definition char := N.
Definition jsstring := list char.

(** A string literal of the source, as code units. *)
Definition str (s : string) : jsstring :=
  map N_of_ascii (list_ascii_of_string s).

Definition LF : char := 10%N.
Definition SP : char := 32%N.

(** [\s] of a regular expression and the characters removed by [trim()]:
    WhiteSpace and LineTerminator of ECMAScript. *)
Definition is_space (c : char) : bool :=
  existsb (N.eqb c)
    [9; 10; 11; 12; 13; 32; 160; 5760; 8232; 8233; 8239; 8287; 12288; 65279]%N
  || ((8192 <=? c) && (c <=? 8202))%N.

(** [\w] of a regular expression: [A-Za-z0-9_]. *)
Definition is_word (c : char) : bool :=
  ((65 <=? c) && (c <=? 90) || (97 <=? c) && (c <=? 122)
   || (48 <=? c) && (c <=? 57) || (c =? 95))%N.

(** [s.trim() === ""] *)
Definition trim_is_empty (s : jsstring) : bool := forallb is_space s.

(** Truthiness of a string: the empty string is falsy. *)
Definition truthy (s : jsstring) : bool :=
  match s with [] => false | _ :: _ => true end.

(** [s.split(sep)] for a one-character separator. *)
Fixpoint split_on (sep : char) (s : jsstring) : list jsstring :=
  match s with
  | [] => [[]]
  | c :: s' =>
    if (c =? sep)%N then [] :: split_on sep s'
    else match split_on sep s' with
         | w :: ws => (c :: w) :: ws
         | [] => [[c]]
         end
  end.

(** [\s*\n] matched at the head of [s], greedy with backtracking: the
    number of code units consumed. *)
Fixpoint match_ws_nl (s : jsstring) : option nat :=
  match s with
  | [] => None
  | c :: s' =>
    if is_space c then
      match match_ws_nl s' with
      | Some k => Some (S k)
      | None => if (c =? LF)%N then Some 1%nat else None
      end
    else None
  end.

(** [s.split(/\n\s*\n/)]: scan from the left; at a position where the
    pattern matches, close the current piece and resume after the match.
    [skip] counts the code units of a match still to be stepped over,
    [cur] holds the current piece in reverse. *)
Fixpoint split_go (skip : nat) (cur : jsstring) (s : jsstring)
  : list jsstring :=
  match s with
  | [] => [rev cur]
  | c :: s' =>
    match skip with
    | S k => split_go k cur s'
    | O =>
      match (if (c =? LF)%N then match_ws_nl s' else None) with
      | Some k => rev cur :: split_go k [] s'
      | None => split_go 0 (c :: cur) s'
      end
    end
  end.

Definition split_paragraphs (s : jsstring) : list jsstring :=
  split_go 0 [] s.

(** [/[(){}\[\]<>]/.test(line)] *)
Definition hasCode (line : jsstring) : bool :=
  existsb (fun c => existsb (N.eqb c) (str "(){}[]<>")) line.

Definition keywords : list jsstring :=
  map str ["function"; "class"; "const"; "let"; "var"; "import"; "export";
           "async"; "await"]%string.

(** [s = k ++ r] gives [Some r]. *)
Fixpoint strip_prefix (k s : jsstring) : option jsstring :=
  match k, s with
  | [], _ => Some s
  | a :: k', b :: s' => if (a =? b)%N then strip_prefix k' s' else None
  | _ :: _, [] => None
  end.

Definition word_at (c : option char) : bool :=
  match c with Some c => is_word c | None => false end.

(** [\b] between two neighbouring positions. *)
Definition boundary (before after : option char) : bool :=
  xorb (word_at before) (word_at after).

Definition keyword_here (prev : option char) (s : jsstring) : bool :=
  existsb (fun k =>
             match strip_prefix k s with
             | Some r => boundary prev (head s)
                         && boundary (last k) (head r)
             | None => false
             end) keywords.

(** [/\b(function|class|const|let|var|import|export|async|await)\b/.test]:
    a match at some position of the line. *)
Fixpoint hasTech_from (prev : option char) (s : jsstring) : bool :=
  keyword_here prev s
  || match s with
     | [] => false
     | c :: s' => hasTech_from (Some c) s'
     end.

Definition hasTech (line : jsstring) : bool := hasTech_from None line.

End JsString.

Import JsString.

(** ** Numbers *)

Module Num.

Local Open Scope Q_scope.

Inductive number :=
| Fin (q : Q)
| PInf
| NInf
| NaN.

Definition of_Z (z : Z) : number := Fin (inject_Z z).

Definition neg (a : number) : number :=
  match a with
  | Fin q => Fin (- q)
  | PInf => NInf
  | NInf => PInf
  | NaN => NaN
  end.

Definition add (a b : number) : number :=
  match a, b with
  | NaN, _ | _, NaN => NaN
  | Fin x, Fin y => Fin (x + y)
  | PInf, NInf | NInf, PInf => NaN
  | PInf, _ | _, PInf => PInf
  | NInf, _ | _, NInf => NInf
  end.

Definition sub (a b : number) : number := add a (neg b).

(** Infinity of the sign of [s]; a zero counts as positive. *)
Definition inf_sign (s : comparison) : number :=
  match s with Lt => NInf | _ => PInf end.

Definition flip (s : comparison) (a : number) : number :=
  match s with Lt => neg a | _ => a end.

Definition mul (a b : number) : number :=
  match a, b with
  | NaN, _ | _, NaN => NaN
  | Fin x, Fin y => Fin (x * y)
  | Fin x, i | i, Fin x =>
    match x ?= 0 with
    | Eq => NaN
    | s => flip s i
    end
  | PInf, PInf | NInf, NInf => PInf
  | PInf, NInf | NInf, PInf => NInf
  end.

Definition div (a b : number) : number :=
  match a, b with
  | NaN, _ | _, NaN => NaN
  | Fin x, Fin y =>
    match y ?= 0 with
    | Eq => match x ?= 0 with
            | Eq => NaN
            | s => inf_sign s
            end
    | _ => Fin (x / y)
    end
  | Fin _, _ => Fin 0
  | i, Fin y => flip (y ?= 0) i
  | _, _ => NaN
  end.

(** [a < b]; false as soon as one side is NaN. *)
Definition ltb (a b : number) : bool :=
  match a, b with
  | NaN, _ | _, NaN => false
  | Fin x, Fin y => match x ?= y with Lt => true | _ => false end
  | _, NInf => false
  | NInf, _ => true
  | PInf, _ => false
  | _, PInf => true
  end.

Definition is_zero (a : number) : bool :=
  match a with
  | Fin x => match x ?= 0 with Eq => true | _ => false end
  | _ => false
  end.

(** Equality of numbers as values ([Q] is a setoid); NaN is related to
    itself here, this is not the [===] of the language. *)
Definition same (a b : number) : Prop :=
  match a, b with
  | Fin x, Fin y => x == y
  | PInf, PInf | NInf, NInf | NaN, NaN => True
  | _, _ => False
  end.

End Num.

Import Num.

(** ** Text layout and segmentation *)

Module Layout.

Local Open Scope Q_scope.

(** The constants at the head of [generateScrollingScriptVideo]. *)
Definition width : Q := 1280.
Definition height : Q := 720.
Definition paddingX : Q := 80.
Definition paddingY : Q := 60.
Definition fontSize : Q := 28.
Definition lineSpacing : Q := 1.8.

(** [width - paddingX * 2] *)
Definition drawableWidth : Q := width - paddingX * 2.

Record section := mkSection {
  startLine : Z;
  endLine : Z;
  complexity : number
}.

(** The three variables the nested [forEach] callbacks mutate. *)
Record layout_state := mkLayout {
  wrappedLines : list jsstring;
  currentLine : Z;
  sections : list section
}.

Definition initial_state : layout_state := mkLayout [] 0 [].

(** [wrappedLines.push(l); currentLine++] *)
Definition push_line (l : jsstring) (st : layout_state) : layout_state :=
  mkLayout (wrappedLines st ++ [l]) (currentLine st + 1) (sections st).

Definition push_section (s : section) (st : layout_state) : layout_state :=
  mkLayout (wrappedLines st) (currentLine st) (sections st ++ [s]).

(** [array.forEach((x, i) => ...)] over a threaded state. *)
Fixpoint forEach_from {A St : Type} (f : St -> A -> nat -> St)
         (i : nat) (l : list A) (st : St) : St :=
  match l with
  | [] => st
  | x :: l' => forEach_from f (S i) l' (f st x i)
  end.

(** [words.reduce((sum, w) => sum + w.length, 0) / words.length] *)
Definition avgWordLength (words : list jsstring) : number :=
  div (fold_left (fun sum w => add sum (of_Z (Z.of_nat (length w))))
                 words (of_Z 0))
      (of_Z (Z.of_nat (length words))).

Definition lineComplexity (line : jsstring) : number :=
  mul (mul (avgWordLength (split_on SP line))
           (if hasCode line then Fin 1.5 else Fin 1))
      (if hasTech line then Fin 1.3 else Fin 1).

Section WithMetrics.

(** [ctx.measureText(s).width] for the font fixed at the start. *)
Variable measureText : jsstring -> Q.

(** One turn of [words.forEach]: the line buffer and the outer state. *)
Definition pack_word (p : jsstring * layout_state) (w : jsstring)
  : jsstring * layout_state :=
  let '(buf, st) := p in
  let test := if truthy buf then buf ++ SP :: w else w in
  if Qle_bool (measureText test) drawableWidth
  then (test, st)
  else (w, push_line buf st).

(** [let buf = ""; words.forEach(...); wrappedLines.push(buf);
    currentLine++] *)
Definition pack_line (words : list jsstring) (st : layout_state)
  : layout_state :=
  let '(buf, st') := fold_left pack_word words ([], st) in
  push_line buf st'.

(** One turn of [lines.forEach]: the running complexity score and the
    outer state. *)
Definition layout_line (p : number * layout_state) (line : jsstring)
  : number * layout_state :=
  let '(complexityScore, st) := p in
  if trim_is_empty line then (complexityScore, push_line [] st)
  else
    let words := split_on SP line in
    (add complexityScore (lineComplexity line), pack_line words st).

(** One turn of [paragraphs.forEach]; [n] is [paragraphs.length]. *)
Definition layout_paragraph (n : nat) (st : layout_state)
           (paragraph : jsstring) (pIndex : nat) : layout_state :=
  let sectionStart := currentLine st in
  let st1 := if (0 <? pIndex)%nat then push_line [] st else st in
  let lines := split_on LF paragraph in
  let '(complexityScore, st2) :=
    fold_left layout_line lines (of_Z 0, st1) in
  let st3 :=
    push_section (mkSection sectionStart (currentLine st2 - 1)%Z
                            complexityScore) st2 in
  if (Z.of_nat pIndex <? Z.of_nat n - 1)%Z then push_line [] st3 else st3.

(** Phase 1 of [generateScrollingScriptVideo], up to the end of
    [paragraphs.forEach]. *)
Definition layout (script : jsstring) : layout_state :=
  let paragraphs := split_paragraphs script in
  forEach_from (layout_paragraph (length paragraphs)) 0 paragraphs
               initial_state.

End WithMetrics.

(** [fontSize * lineSpacing] *)
Definition lineHeight : Q := fontSize * lineSpacing.

(** [wrappedLines.length * lineHeight + paddingY * 2 + height] *)
Definition totalHeight (st : layout_state) : Q :=
  inject_Z (Z.of_nat (length (wrappedLines st))) * lineHeight
  + paddingY * 2 + height.

End Layout.

Import Layout.

(** A metric for examples: every code unit is ten pixels wide. *)
Definition tenPx (s : jsstring) : Q := inject_Z (10 * Z.of_nat (length s)).

(** ** Duration allocation and the scroll expression *)

Module Scroll.

(** A piece of a template literal: literal characters, or an
    interpolated number, printed by the language when the text is built. *)
Inductive token :=
| Lit (s : string)
| Num (n : number).

Definition text := list token.

(** [s.repeat(n)] *)
Fixpoint repeat_string (s : string) (n : nat) : string :=
  match n with
  | O => EmptyString
  | S n' => String.append s (repeat_string s n')
  end.

(** The characters of a text, given the printing [show] of numbers. *)
Fixpoint render (show : number -> string) (e : text) : string :=
  match e with
  | [] => EmptyString
  | Lit s :: e' => String.append s (render show e')
  | Num n :: e' => String.append (show n) (render show e')
  end.

Definition initialDelay : number := Fin 6.
Definition speedFactor : number := Fin 0.7.

(** [sections.reduce((s, sec) => s + sec.complexity, 0)] *)
Definition totalComplexity (secs : list section) : number :=
  fold_left (fun s sec => add s (complexity sec)) secs (of_Z 0).

Section WithAudio.

Variable st : layout_state.
(** The probed audio duration. *)
Variable duration : number.

Definition availableDuration : number := sub duration initialDelay.

(** [(sec.complexity / totalComplexity) * availableDuration] *)
Definition secDur (sec : section) : number :=
  mul (div (complexity sec) (totalComplexity (sections st)))
      availableDuration.

(** [sec.startLine * lineHeight + paddingY] *)
Definition sectionStart (sec : section) : number :=
  add (mul (of_Z (startLine sec)) (Fin lineHeight)) (Fin paddingY).

(** [(sec.endLine + 1) * lineHeight + paddingY] *)
Definition sectionEnd (sec : section) : number :=
  add (mul (of_Z (endLine sec + 1)) (Fin lineHeight)) (Fin paddingY).

(** The template [start+((t-t0)/(secDur / speedFactor))*height], with
    [height = end - start]. *)
Definition formula (sec : section) (t0 : number) : text :=
  [Num (sectionStart sec); Lit "+((t-"; Num t0; Lit ")/";
   Num (div (secDur sec) speedFactor); Lit ")*";
   Num (sub (sectionEnd sec) (sectionStart sec))].

(** [totalHeight - height], the offset of the last frame. *)
Definition finalOffset : number := sub (Fin (totalHeight st)) (Fin height).

(** One turn of [sections.forEach] in [generateScrollExpression]: it
    appends [if(lt(t,t0 + secDur),formula,] to the text and advances the
    running time [t0]. *)
Definition scroll_turn (p : text * number) (sec : section) : text * number :=
  let '(expr, t0) := p in
  (expr ++ [Lit "if(lt(t,"; Num (add t0 (secDur sec)); Lit "),"]
        ++ formula sec t0 ++ [Lit ","],
   add t0 (secDur sec)).

(** The text before the loop: [if(lt(t,initialDelay),paddingY,]. *)
Definition scroll_head : text :=
  [Lit "if(lt(t,"; Num initialDelay; Lit "),"; Num (Fin paddingY); Lit ","].

(** The text [generateScrollExpression] returns: the head, one turn for
    each section, then the final offset and [sections.length] closing
    parentheses. *)
Definition generateScrollExpression : text :=
  let '(expr, _) :=
    fold_left scroll_turn (sections st) (scroll_head, initialDelay) in
  expr ++ [Num finalOffset;
           Lit (repeat_string ")" (length (sections st)))].

(** The running time after each turn of the loop: the right ends of
    the sections' time windows. *)
Fixpoint boundaries (secs : list section) (t0 : number) : list number :=
  match secs with
  | [] => []
  | sec :: rest => add t0 (secDur sec) :: boundaries rest (add t0 (secDur sec))
  end.

End WithAudio.

End Scroll.

Import Scroll.

(** ** Rendering and muxing *)

Module Pipeline.

Local Open Scope string_scope.

Definition buffer := list N.

(** A settled promise or a call that returns or throws; [e] is the
    message of the error. *)
Inductive outcome (A : Type) :=
| Resolved (a : A)
| Rejected (e : string).
Arguments Resolved {A} a.
Arguments Rejected {A} e.

(** The two invocations of the external encoder. *)
Inductive encoder_call :=
| ScrollCall (image : string) (y : text) (t : number) (output : string)
| MuxCall (video audio output : string).

(** What an invocation can observe and change: the files under [/tmp]
    and the encoder invocations made so far. *)
Record world := mkWorld {
  files : gmap string buffer;
  encoderCalls : list encoder_call
}.

(** The collaborators of [generateScrollingScriptVideo]. *)
Record collaborators := mkCollaborators {
  measureText : jsstring -> Q;
  (** drawing the lines on the tall canvas and reading its PNG stream *)
  renderPng : list jsstring -> Q -> outcome buffer;
  saveScrollImage : string -> buffer -> outcome unit;
  (** [ffprobe]: [metadata.format.duration], possibly undefined *)
  ffprobe : buffer -> outcome (option number);
  (** the crop-filter run: image, offset expression, [-t] *)
  ffmpegScroll : buffer -> text -> number -> outcome buffer;
  (** the mux run: video, audio *)
  ffmpegMux : buffer -> buffer -> outcome buffer;
  saveScrollVideo : string -> buffer -> outcome unit
}.

(** Computations over the world that may throw. *)
Definition M (A : Type) := world -> outcome A * world.

Definition ret {A} (a : A) : M A := fun w => (Resolved a, w).

Definition bind {A B} (m : M A) (k : A -> M B) : M B :=
  fun w =>
    match m w with
    | (Resolved a, w') => k a w'
    | (Rejected e, w') => (Rejected e, w')
    end.

#[export] Instance M_ret : MRet M := @ret.
#[export] Instance M_bind : MBind M := fun A B k m => bind m k.

Definition lift {A} (o : outcome A) : M A := fun w => (o, w).

(** [fs.writeFileSync(path, data)].  The writes and removals of the
    invocation's own files under [/tmp] are taken to succeed: a [/tmp] that
    is not writable or is full, where they would throw, is outside the
    model.  Reading a file that is not there fails. *)
Definition writeFileSync (path : string) (data : buffer) : M unit :=
  fun w => (Resolved tt, mkWorld (<[path := data]> (files w)) (encoderCalls w)).

(** [fs.readFileSync(path)] *)
Definition readFileSync (path : string) : M buffer :=
  fun w =>
    match files w !! path with
    | Some data => (Resolved data, w)
    | None => (Rejected "ENOENT", w)
    end.

(** [fs.rmSync(path, { force: true })] *)
Definition rmSync (path : string) : M unit :=
  fun w => (Resolved tt, mkWorld (delete path (files w)) (encoderCalls w)).

Definition record (c : encoder_call) : M unit :=
  fun w => (Resolved tt, mkWorld (files w) (encoderCalls w ++ [c])).

(** [a || 0] on a possibly undefined number. *)
Definition or_zero (a : option number) : number :=
  match a with
  | Some NaN | None => of_Z 0
  | Some n => if is_zero n then of_Z 0 else n
  end.

Section WithCollaborators.

Variable c : collaborators.

(** [getAudioDuration(filePath)] *)
Definition getAudioDuration (filePath : string) : M number :=
  data ← readFileSync filePath;
  metadata ← lift (ffprobe c data);
  mret (or_zero metadata).

(** Step 5: the crop-filter run saved to [output]. *)
Definition createScrollVideo (image : string) (y : text) (t : number)
           (output : string) : M unit :=
  record (ScrollCall image y t output);;
  data ← readFileSync image;
  video ← lift (ffmpegScroll c data y t);
  writeFileSync output video.

(** Step 6: the mux run saved to [output]. *)
Definition mergeAudio (video audio output : string) : M unit :=
  record (MuxCall video audio output);;
  v ← readFileSync video;
  a ← readFileSync audio;
  final ← lift (ffmpegMux c v a);
  writeFileSync output final.

(** The body of the [try] block; the [catch] block logs and rethrows,
    which leaves the outcome and the world as they are. *)
Definition generateScrollingScriptVideo
           (script : jsstring) (audioBuffer : buffer) (jobId : string)
  : M buffer :=
  let st := layout (measureText c) script in
  imageBuffer ← lift (renderPng c (wrappedLines st) (totalHeight st));
  lift (saveScrollImage c jobId imageBuffer);;
  let tmpImage := "/tmp/" ++ jobId ++ "-scroll.png" in
  let tmpAudio := "/tmp/" ++ jobId ++ "-audio.wav" in
  let tmpVideo := "/tmp/" ++ jobId ++ "-video.mp4" in
  let tmpFinal := "/tmp/" ++ jobId ++ "-final.mp4" in
  writeFileSync tmpImage imageBuffer;;
  writeFileSync tmpAudio audioBuffer;;
  duration ← getAudioDuration tmpAudio;
  createScrollVideo tmpImage (generateScrollExpression st duration)
                    duration tmpVideo;;
  mergeAudio tmpVideo tmpAudio tmpFinal;;
  finalVideoBuffer ← readFileSync tmpFinal;
  lift (saveScrollVideo c jobId finalVideoBuffer);;
  rmSync tmpImage;;
  rmSync tmpAudio;;
  rmSync tmpVideo;;
  rmSync tmpFinal;;
  mret finalVideoBuffer.

End WithCollaborators.

Definition tmpFiles (jobId : string) : list string :=
  map (fun suffix => "/tmp/" ++ jobId ++ suffix)
      ["-scroll.png"; "-audio.wav"; "-video.mp4"; "-final.mp4"].

Definition emptyWorld : world := mkWorld ∅ [].

End Pipeline.

Import Pipeline.

(** Collaborators for examples: every call succeeds; the audio lasts
    [d] seconds. *)
Definition happy (d : number) : collaborators :=
  mkCollaborators tenPx
    (fun _ _ => Resolved [1%N]) (fun _ _ => Resolved tt)
    (fun _ => Resolved (Some d))
    (fun _ _ _ => Resolved [2%N]) (fun _ _ => Resolved [3%N])
    (fun _ _ => Resolved tt).

(** The same, with a failing crop-filter run. *)
Definition encoderDown (d : number) : collaborators :=
  mkCollaborators tenPx
    (fun _ _ => Resolved [1%N]) (fun _ _ => Resolved tt)
    (fun _ => Resolved (Some d))
    (fun _ _ _ => Rejected "ffmpeg exited with code 1"%string)
    (fun _ _ => Resolved [3%N])
    (fun _ _ => Resolved tt).

(** The same, with a failing mux run. *)
Definition muxDown (d : number) : collaborators :=
  mkCollaborators tenPx
    (fun _ _ => Resolved [1%N]) (fun _ _ => Resolved tt)
    (fun _ => Resolved (Some d))
    (fun _ _ _ => Resolved [2%N])
    (fun _ _ => Rejected "ffmpeg exited with code 1"%string)
    (fun _ _ => Resolved tt).

(** Two one-word paragraphs. *)
Definition twoParagraphs : jsstring := str "a" ++ [LF; LF] ++ str "b".

(** A word of 120 code units: 1200 pixels at ten pixels a code unit. *)
Definition longWord : jsstring := repeat 120%N 120.

(** Two paragraphs of unequal length. *)
Definition helloScript : jsstring :=
  str "Hello world." ++ [LF; LF] ++
  str "This is the second paragraph with more text to test the scrolling functionality.".

(** ** Predicates used in the statements *)

Module Spec.

(** [st'] is [st] with the lines [new] pushed and nothing else changed. *)
Definition grows (st st' : layout_state) (new : list jsstring) : Prop :=
  wrappedLines st' = wrappedLines st ++ new /\
  currentLine st' = (currentLine st + Z.of_nat (length new))%Z /\
  sections st' = sections st.

(** A finite, non-negative number. *)
Definition nonneg (a : number) : Prop := exists q, a = Fin q /\ (0 <= q)%Q.

(** Line [i] lies in the section. *)
Definition in_section (i : Z) (s : section) : Prop :=
  (startLine s <= i <= endLine s)%Z.

(** The sections in the order they were pushed, with the last line of
    the last one: the first section starts at line 0, every section has at
    least one line, and a section starts two lines after the end of the
    one before it. *)
Inductive chain : list section -> Z -> Prop :=
| chain_first s :
    startLine s = 0%Z -> (0 <= endLine s)%Z -> chain [s] (endLine s)
| chain_next secs e s :
    chain secs e -> startLine s = (e + 2)%Z ->
    (startLine s <= endLine s)%Z -> chain (secs ++ [s]) (endLine s).

(** The lines pushed before and after the body of paragraph [i] of [n]. *)
Definition lead (i : nat) : list jsstring :=
  if (0 <? i)%nat then [[]] else [].
Definition trail (n i : nat) : list jsstring :=
  if (Z.of_nat i <? Z.of_nat n - 1)%Z then [[]] else [].

(** The wrapped line after a section, when there is one, is empty. *)
Definition gap_blank (st : layout_state) (s : section) : Prop :=
  (endLine s + 1 < currentLine st)%Z ->
  wrappedLines st !! Z.to_nat (endLine s + 1) = Some [].

(** The state after [i] of [n] paragraphs; [P] holds of every line. *)
Record layout_inv (P : jsstring -> Prop) (n i : nat) (st : layout_state)
  : Prop := {
  inv_count : currentLine st = Z.of_nat (length (wrappedLines st));
  inv_lines : Forall P (wrappedLines st);
  inv_scores : Forall (fun s => nonneg (complexity s)) (sections st);
  inv_sections : length (sections st) = i;
  inv_gaps : Forall (gap_blank st) (sections st);
  inv_chain :
    match i with
    | O => currentLine st = 0%Z
    | S _ => exists e, chain (sections st) e /\
                       currentLine st =
                         (e + 1 + (if (i <? n)%nat then 1 else 0))%Z
    end
}.

(** Section number [k] holds line [i]. *)
Definition belongs (st : layout_state) (i : Z) (k : nat) : Prop :=
  exists s, sections st !! k = Some s /\ in_section i s.

Definition in_one_section (st : layout_state) (i : Z) : Prop :=
  exists k, belongs st i k /\ forall k', belongs st i k' -> k' = k.

(** Every wrapped line lies in exactly one section. *)
Definition sections_partition (st : layout_state) : Prop :=
  forall i, (0 <= i < Z.of_nat (length (wrappedLines st)))%Z ->
            in_one_section st i.

(** Line [i] lies in no section: it is the empty line between two
    consecutive sections. *)
Definition separator (st : layout_state) (i : Z) : Prop :=
  (forall k, ~ belongs st i k) /\
  wrappedLines st !! Z.to_nat i = Some [] /\
  exists k s s',
    sections st !! k = Some s /\ sections st !! S k = Some s' /\
    i = (endLine s + 1)%Z /\ startLine s' = (i + 1)%Z.

(** How often the character [c] occurs in [s]. *)
Fixpoint count_char (c : ascii) (s : string) : nat :=
  match s with
  | EmptyString => 0
  | String a s' => (if Ascii.eqb a c then 1 else 0) + count_char c s'
  end.

Definition opens (s : string) : nat := count_char "(" s.
Definition closes (s : string) : nat := count_char ")" s.

(** The nesting depth after reading [s] from depth [d]; none when a
    parenthesis closes nothing. *)
Fixpoint depth (d : nat) (s : string) : option nat :=
  match s with
  | EmptyString => Some d
  | String a s' =>
    if Ascii.eqb a "(" then depth (S d) s'
    else if Ascii.eqb a ")"
         then match d with O => None | S d' => depth d' s' end
         else depth d s'
  end.

(** Every parenthesis of [s] has its match. *)
Definition balanced (s : string) : bool :=
  match depth 0 s with Some O => true | _ => false end.

(** The numbers compared with [t] in the time tests of a text. *)
Fixpoint window_ends (e : text) : list number :=
  match e with
  | [] => []
  | Lit s :: e' =>
    match e' with
    | Num n :: _ =>
      if String.eqb s "if(lt(t," then n :: window_ends e' else window_ends e'
    | _ => window_ends e'
    end
  | Num _ :: e' => window_ends e'
  end.

(** The zero-total rule of the specification: every section gets
    [availableDuration / sections.length]. *)
Definition equal_shares (st : layout_state) (D : Q) : Prop :=
  Forall (fun s => same (secDur st (Fin D) s)
                        (div (availableDuration (Fin D))
                             (of_Z (Z.of_nat (length (sections st))))))
         (sections st).

Definition rejected {A} (o : outcome A) : Prop :=
  match o with Rejected _ => True | Resolved _ => False end.

(** The invocation fails without having called the encoder. *)
Definition fails_fast (c : collaborators) (script : jsstring)
           (audio : buffer) (jobId : string) (w : world) : Prop :=
  let r := generateScrollingScriptVideo c script audio jobId w in
  rejected r.1 /\ encoderCalls r.2 = encoderCalls w.

(** The crop-filter run an invocation makes for a probed duration. *)
Definition scrollCall (c : collaborators) (script : jsstring)
           (jobId : string) (duration : number) : encoder_call :=
  ScrollCall ("/tmp/" ++ jobId ++ "-scroll.png")%string
             (generateScrollExpression (layout (measureText c) script)
                                       duration)
             duration
             ("/tmp/" ++ jobId ++ "-video.mp4")%string.

(** The shape a wrapped line may have: it fits the drawable width, or
    it is one word (it has no space in it) wider than that. *)
Definition fits_or_lone_word (measureText : jsstring -> Q) (l : jsstring)
  : Prop :=
  (measureText l <= drawableWidth)%Q \/
  (~ In SP l /\ (drawableWidth < measureText l)%Q).

End Spec.

Import Spec.

(** Reduce the file lookups of a run; the temp paths of the context are
    pairwise distinct. *)
Ltac run_fs :=
  repeat (progress cbn [files encoderCalls fst snd]
          || rewrite lookup_insert_eq
          || rewrite lookup_insert_ne by congruence).

(** ** Further notions used in the statements *)

Module Derived.

(** What one turn of [lines.forEach] does to the complexity score. *)
Definition score_line (score : number) (line : jsstring) : number :=
  if trim_is_empty line then score else add score (lineComplexity line).

(** The complexity score of a paragraph, read off [lines.forEach] with
    the pushes of wrapped lines left out. *)
Definition paragraphComplexity (paragraph : jsstring) : number :=
  fold_left score_line (split_on LF paragraph) (of_Z 0).

(** A text with a character that is not white space:
    [text.trim() !== ""]. *)
Definition visible (text : jsstring) : Prop :=
  exists c, In c text /\ is_space c = false.

(** A finite, positive number. *)
Definition positive (a : number) : Prop := exists q, a = Fin q /\ (0 < q)%Q.

(** The words of some lines that are not empty, in order. *)
Definition words_of (lines : list jsstring) : list jsstring :=
  filter (fun w => truthy w = true) (flat_map (split_on SP) lines).

(** Sum of rationals. *)
Definition Qsum (qs : list Q) : Q := fold_right Qplus 0%Q qs.

(** The numbers [l] are finite, with the values [qs]. *)
Definition finite_as (l : list number) (qs : list Q) : Prop :=
  Forall2 (fun a q => a = Fin q) l qs.

(** The words of a line buffer: none for the empty buffer. *)
Definition line_words (line : jsstring) : list jsstring :=
  if truthy line then split_on SP line else [].

(** A word of a text with single spaces: not empty, no space in it. *)
Definition plain_word (w : jsstring) : Prop := w <> [] /\ ~ In SP w.

(** The source lines that are not blank, paragraph after paragraph. *)
Definition text_lines (script : jsstring) : list jsstring :=
  filter (fun l => trim_is_empty l = false)
         (flat_map (split_on LF) (split_paragraphs script)).

End Derived.

Import Derived.

(** ** The durations in binary64 *)

(** The arithmetic of the language's numbers: IEEE 754 binary64, every
    operation rounded to nearest, ties to even.  The scoring and the
    allocation are the ones above, evaluated in it. *)
Module Binary64.

Definition float := spec_float.

Definition prec : Z := 53.
Definition emax : Z := 1024.

(** An integer as a number (exact below 2^53). *)
Definition of_Z (z : Z) : float := binary_normalize prec emax z 0 false.

Definition add : float -> float -> float := SFadd prec emax.
Definition sub : float -> float -> float := SFsub prec emax.
Definition mul : float -> float -> float := SFmul prec emax.
Definition div : float -> float -> float := SFdiv prec emax.
Definition ltb : float -> float -> bool := SFltb.

(** The decimal literal [n / d] for integers [n] and [d] below 2^53 that
    are exact: the number nearest to the quotient, as the literal is. *)
Definition decimal (n d : Z) : float := div (of_Z n) (of_Z d).

(** [words.reduce((sum, w) => sum + w.length, 0) / words.length] *)
Definition avgWordLength (words : list jsstring) : float :=
  div (fold_left (fun sum w => add sum (of_Z (Z.of_nat (length w))))
                 words (of_Z 0))
      (of_Z (Z.of_nat (length words))).

(** [avgWordLength * (hasCode ? 1.5 : 1) * (hasTech ? 1.3 : 1)] *)
Definition lineComplexity (line : jsstring) : float :=
  mul (mul (avgWordLength (split_on SP line))
           (if hasCode line then decimal 15 10 else of_Z 1))
      (if hasTech line then decimal 13 10 else of_Z 1).

(** What one turn of [lines.forEach] does to the complexity score. *)
Definition score_line (score : float) (line : jsstring) : float :=
  if trim_is_empty line then score else add score (lineComplexity line).

(** The complexity score of a paragraph. *)
Definition paragraphComplexity (paragraph : jsstring) : float :=
  fold_left score_line (split_on LF paragraph) (of_Z 0).


(** [sections.reduce((s, sec) => s + sec.complexity, 0)] *)
Definition totalComplexity (cs : list float) : float :=
  fold_left add cs (of_Z 0).

(** [duration - initialDelay] *)
Definition availableDuration (duration : float) : float :=
  sub duration (of_Z 6).

(** [(sec.complexity / totalComplexity) * availableDuration] *)
Definition secDur (cs : list float) (duration c : float) : float :=
  mul (div c (totalComplexity cs)) (availableDuration duration).




End Binary64.

(** ** The slide mode: [wrapText], [generateSlides], [generateVideo] *)

Module Slides.

Local Open Scope Q_scope.

Section WithMetrics.

(** [ctx.measureText(s).width] *)
Variable measureText : jsstring -> Q.

(** [line + (line ? ' ' : '') + word] *)
Definition join_word (line word : jsstring) : jsstring :=
  line ++ (if truthy line then [SP] else []) ++ word.

(** One turn of the loop of [wrapText]: the lines pushed so far and the
    current line. *)
Definition wrap_step (maxWidth : Q) (p : list jsstring * jsstring)
           (word : jsstring) : list jsstring * jsstring :=
  let '(lines, line) := p in
  let testLine := join_word line word in
  let width := measureText testLine in
  if negb (Qle_bool width maxWidth) && truthy line
  then (lines ++ [line], word)
  else (lines, testLine).

(** [wrapText(ctx, text, maxWidth)] *)
Definition wrapText (text : jsstring) (maxWidth : Q) : list jsstring :=
  let words := split_on SP text in
  let '(lines, line) := fold_left (wrap_step maxWidth) words ([], []) in
  if truthy line then lines ++ [line] else lines.

(** The shape of a line of [wrapText]: not empty, and within the width
    or a single word. *)
Definition wrapped_line (maxWidth : Q) (l : jsstring) : Prop :=
  l <> [] /\ (measureText l <= maxWidth \/ ~ In SP l).

(** [canvas.width - 2 * paddingX] and [canvas.height - 2 * paddingY] of
    a slide. *)
Definition availableWidth : Q := 1280 - 2 * 40.
Definition availableHeight : Q := 720 - 2 * 40.

(** The loop of [generateSlides] that looks for a font size, from the
    values [fontSize], [lineHeight] and [maxLines] have before a turn;
    [fuel] bounds the number of turns. *)
Fixpoint fit_font (fuel : nat) (fontSize lineHeight : Q) (maxLines : Z)
  : Q * Q * Z :=
  match fuel with
  | O => (fontSize, lineHeight, maxLines)
  | S fuel' =>
    if Qle_bool 18 fontSize then
      let lineHeight := fontSize * 1.3 in
      let maxLines := Qfloor (availableHeight / lineHeight) in
      if (8 <=? maxLines)%Z then (fontSize, lineHeight, maxLines)
      else fit_font fuel' (fontSize - 1) lineHeight maxLines
    else (fontSize, lineHeight, maxLines)
  end.

(** The font size, line height and number of lines of a slide: the loop
    started at 28 pixels, which leaves it in at most eleven turns. *)
Definition slideFont : Q * Q * Z :=
  fit_font 12 28 (28 * 1.3) (Qfloor (availableHeight / (28 * 1.3))).

Definition maxLines : nat := Z.to_nat slideFont.2.

(** The loop that fills one slide: the words still to place (the part of
    [words] from [wordIndex] on), the lines of the slide and the current
    line. *)
Fixpoint fill_slide (words : list jsstring) (lines : list jsstring)
         (currentLine : jsstring) : list jsstring * jsstring :=
  match words with
  | [] => (lines, currentLine)
  | word :: rest =>
    if (length lines <? maxLines)%nat then
      let testLine := join_word currentLine word in
      if Qle_bool (measureText testLine) availableWidth
      then fill_slide rest lines testLine
      else if truthy currentLine
           then fill_slide rest (lines ++ [currentLine]) word
           else fill_slide rest (lines ++ [word]) currentLine
    else (lines, currentLine)
  end.

(** The lines of the slide made from the words at hand. *)
Definition slide_lines (words : list jsstring) : list jsstring :=
  let '(lines, currentLine) := fill_slide words [] [] in
  if truthy currentLine && (length lines <? maxLines)%nat
  then lines ++ [currentLine]
  else lines.

(** [lines.join(' ')] *)
Fixpoint join_lines (lines : list jsstring) : jsstring :=
  match lines with
  | [] => []
  | [l] => l
  | l :: rest => l ++ SP :: join_lines rest
  end.

(** [lines.join(' ').split(' ').length] *)
Definition usedWords (lines : list jsstring) : nat :=
  length (split_on SP (join_lines lines)).

(** The loop [while (words.length > 0)] of [generateSlides]: the texts
    pushed to [allSlides]; [None] when [fuel] turns were not enough. *)
Fixpoint slides_loop (fuel : nat) (words : list jsstring)
  : option (list jsstring) :=
  match words with
  | [] => Some []
  | _ :: _ =>
    match fuel with
    | O => None
    | S fuel' =>
      let lines := slide_lines words in
      let rest := drop (Nat.min (usedWords lines) (length words)) words in
      match slides_loop fuel' rest with
      | Some slides => Some (join_lines lines :: slides)
      | None => None
      end
    end
  end.

(** [allSlides] of [generateSlides(script, outputDir)]. *)
Definition allSlides (script : jsstring) : option (list jsstring) :=
  slides_loop (length (split_on SP script)) (split_on SP script).

End WithMetrics.

(** [slide.split(' ').length] *)
Definition wordCount (slide : jsstring) : number :=
  of_Z (Z.of_nat (length (split_on SP slide))).

(** [allSlides.reduce((sum, slide) => sum + slide.split(' ').length, 0)] *)
Definition totalWords (slides : list jsstring) : number :=
  fold_left (fun sum slide => add sum (wordCount slide)) slides (of_Z 0).

(** [allWeights] of [generateSlides]. *)
Definition allWeights (slides : list jsstring) : list number :=
  map (fun slide => div (wordCount slide) (totalWords slides)) slides.

(** [slideDurations] of [generateVideo]: the share of the audio with the
    30% buffer. *)
Definition slideDurations (weights : list number)
           (actualAudioDuration : number) : list number :=
  map (fun weight => mul (mul weight actualAudioDuration) (Fin 1.3)) weights.

(** [finalSlideDurations] of [generateVideo]: the buffered durations
    scaled to the audio duration. *)
Definition finalSlideDurations (weights : list number)
           (actualAudioDuration : number) : list number :=
  let durations := slideDurations weights actualAudioDuration in
  let totalBufferedDuration := fold_left add durations (of_Z 0) in
  let scaleFactor := div actualAudioDuration totalBufferedDuration in
  map (fun duration => mul duration scaleFactor) durations.

End Slides.

Import Slides.

(** ** The route that starts a video job: [weaveit-generator/generateRoute.ts] *)

(** The database, the script enhancer, the speech service and the video
    generator are awaited services that resolve or reject.  A request or
    a background run is the list of what it does, in order.  The body of
    the request is an object (the JSON body parser has run), and sending
    a response, a webhook or a websocket event does not throw:
    [sendWebhook] catches its own errors. *)

Module Route.

Local Open Scope string_scope.

(** A value of the request body. *)
Inductive jsvalue :=
| JUndefined
| JNull
| JBool (b : bool)
| JNumber (n : number)
| JString (s : jsstring)
| JObject.

(** [!v] *)
Definition falsy (v : jsvalue) : bool :=
  match v with
  | JUndefined | JNull => true
  | JBool b => negb b
  | JNumber NaN => true
  | JNumber n => is_zero n
  | JString s => negb (truthy s)
  | JObject => false
  end.

(** [typeof v !== 'string'] *)
Definition not_string (v : jsvalue) : bool :=
  match v with JString _ => false | _ => true end.

(** [!script || typeof script !== 'string' || script.trim() === ''] *)
Definition missing_script (script : jsvalue) : bool :=
  falsy script
  || (not_string script
      || match script with JString s => trim_is_empty s | _ => false end).

(** [!walletAddress || typeof walletAddress !== 'string'] *)
Definition missing_wallet (walletAddress : jsvalue) : bool :=
  falsy walletAddress || not_string walletAddress.

(** The fields the handler takes from [req.body]. *)
Record body := mkBody {
  walletAddress : jsvalue;
  script : jsvalue;
  title : jsvalue
}.

Inductive status := Generating | Completed | Failed.

(** What is sent with [res]. *)
Inductive response :=
| BadRequest (error : string)
| PaymentRequired (required : Z)
| Started (jobId : string) (creditsDeducted : Z) (remainingCredits : number)
| ServerError.

(** What a request or a background run does, in order. *)
Inductive event :=
| PointsDeducted (wallet : jsstring) (cost : Z)
| JobCreated (wallet script : jsstring) (title : jsvalue)
| StatusUpdated (jobId : string) (s : status)
| ScriptEnhanced (script : jsstring)
| Responded (r : response)
| Scheduled (jobId : string) (wallet script explanation : jsstring)
| WebhookSent (jobId : string) (s : status)
| Progress (percent : Z)
| SpeechGenerated (explanation : jsstring)
| VideoGenerated (script : jsstring)
| VideoStored (jobId : string) (durationSec : Z)
| CompletedEmitted (jobId : string) (durationSec : Z)
| ErrorEmitted (jobId : string).

(** The services the route awaits; [deductUserPoints] resolves with
    [null] when the credits do not suffice. *)
Record services := mkServices {
  deductUserPoints : jsstring -> Z -> outcome (option number);
  createVideoJob : jsstring -> jsstring -> jsvalue -> outcome string;
  updateJobStatus : string -> status -> outcome unit;
  enhanceScript : jsstring -> outcome jsstring;
  generateSpeechBuffer : jsstring -> outcome buffer;
  generateVideoBuffer : jsstring -> buffer -> outcome buffer;
  storeVideo : string -> jsstring -> buffer -> Z -> outcome string
}.

(** [Math.round] on a finite number. *)
Definition js_round (q : Q) : Z := Qfloor (q + (1 # 2))%Q.

(** [estimateAudioDuration(buffer)]:
    [Math.round((buffer.length * 8) / 128000)] *)
Definition estimateAudioDuration (buffer : Pipeline.buffer) : Z :=
  js_round (inject_Z (Z.of_nat (length buffer) * 8) / 128000)%Q.

Section WithServices.

Variable c : services.

(** The [catch] block of the handler; no header was sent when it runs. *)
Definition handler_failed (jobId : option string) : list event :=
  match jobId with
  | Some (String a j) =>
    [StatusUpdated (String a j) Failed; WebhookSent (String a j) Failed;
     Responded ServerError]
  | _ => [Responded ServerError]
  end.

(** [generateHandler]: what it does for a request body. *)
Definition generateHandler (b : body) : list event :=
  if missing_script (script b)
  then [Responded (BadRequest "Missing script in request body")]
  else if missing_wallet (walletAddress b)
  then [Responded (BadRequest "Missing walletAddress in request body")]
  else
    match script b, walletAddress b with
    | JString script, JString walletAddress =>
      PointsDeducted walletAddress 2 ::
      match deductUserPoints c walletAddress 2 with
      | Rejected _ => handler_failed None
      | Resolved None => [Responded (PaymentRequired 2)]
      | Resolved (Some newBalance) =>
        JobCreated walletAddress script (title b) ::
        match createVideoJob c walletAddress script (title b) with
        | Rejected _ => handler_failed None
        | Resolved jobId =>
          StatusUpdated jobId Generating ::
          match updateJobStatus c jobId Generating with
          | Rejected _ => handler_failed (Some jobId)
          | Resolved _ =>
            ScriptEnhanced script ::
            match enhanceScript c script with
            | Rejected _ => handler_failed (Some jobId)
            | Resolved explanation =>
              [Responded (Started jobId 2 newBalance);
               Scheduled jobId walletAddress script explanation]
            end
          end
        end
      end
    | _, _ => []
    end.

(** The [catch] block of [processVideoGeneration]. *)
Definition processing_failed (jobId : string) : list event :=
  [WebhookSent jobId Failed; ErrorEmitted jobId].

(** [processVideoGeneration(jobId, walletAddress, script, explanation)] *)
Definition processVideoGeneration (jobId : string)
           (walletAddress script explanation : jsstring) : list event :=
  [Progress 0; Progress 2; Progress 5; SpeechGenerated explanation] ++
  match generateSpeechBuffer c explanation with
  | Rejected _ => processing_failed jobId
  | Resolved audioBuffer =>
    [Progress 10; Progress 15; Progress 20; VideoGenerated script] ++
    match generateVideoBuffer c script audioBuffer with
    | Rejected _ => processing_failed jobId
    | Resolved videoBuffer =>
      let durationSec := estimateAudioDuration audioBuffer in
      [Progress 30; Progress 35; VideoStored jobId durationSec] ++
      match storeVideo c jobId walletAddress videoBuffer durationSec with
      | Rejected _ => processing_failed jobId
      | Resolved videoId =>
        [Progress 40; StatusUpdated jobId Completed] ++
        match updateJobStatus c jobId Completed with
        | Rejected _ => processing_failed jobId
        | Resolved _ =>
          [WebhookSent jobId Completed; CompletedEmitted jobId durationSec]
        end
      end
    end
  end.

End WithServices.

(** The responses sent, the progress percentages emitted and the
    terminal events of a trace, in order. *)
Definition responses (trace : list event) : list response :=
  flat_map (fun e => match e with Responded r => [r] | _ => [] end) trace.

Definition progress (trace : list event) : list Z :=
  flat_map (fun e => match e with Progress p => [p] | _ => [] end) trace.

Definition terminal (e : event) : bool :=
  match e with CompletedEmitted _ _ | ErrorEmitted _ => true | _ => false end.

Definition status_updates (trace : list event) : list (string * status) :=
  flat_map (fun e => match e with StatusUpdated j s => [(j, s)] | _ => [] end)
           trace.

(** Services that all resolve, for a wallet with [balance] credits left
    after the deduction, and the same with the speech service down. *)
Definition services_up (balance : Q) : services :=
  mkServices (fun _ _ => Resolved (Some (Fin balance)))
             (fun _ _ _ => Resolved "job-1")
             (fun _ _ => Resolved tt)
             (fun script => Resolved script)
             (fun explanation => Resolved (repeat 0%N (200 * 200)))
             (fun _ audio => Resolved [2%N])
             (fun _ _ _ _ => Resolved "video-1").

Definition speech_down (balance : Q) : services :=
  mkServices (fun _ _ => Resolved (Some (Fin balance)))
             (fun _ _ _ => Resolved "job-1")
             (fun _ _ => Resolved tt)
             (fun script => Resolved script)
             (fun explanation => Rejected "speech service unavailable")
             (fun _ audio => Resolved [2%N])
             (fun _ _ _ _ => Resolved "video-1").

(** The job is created, but the script cannot be enhanced. *)
Definition enhance_down (balance : Q) : services :=
  mkServices (fun _ _ => Resolved (Some (Fin balance)))
             (fun _ _ _ => Resolved "job-1")
             (fun _ _ => Resolved tt)
             (fun script => Rejected "model unavailable")
             (fun explanation => Resolved [1%N])
             (fun _ audio => Resolved [2%N])
             (fun _ _ _ _ => Resolved "video-1").

Definition request : body :=
  mkBody (JString (str "wallet")) (JString (str "Hello world")) JUndefined.

End Route.

Import Route.

(** A printing of numbers for examples: an integer in decimal, another
    finite number as a quotient of two integers.  (The language prints
    the shortest decimal that reads back as the number; like it, this
    printing writes no parenthesis.) *)
Fixpoint show_digits (fuel : nat) (n : N) (acc : string) : string :=
  match fuel with
  | O => acc
  | S fuel' =>
    let acc' := String (ascii_of_N (48 + n mod 10)) acc in
    if (n <? 10)%N then acc' else show_digits fuel' (n / 10) acc'
  end.

Definition show_N (n : N) : string :=
  show_digits (S (N.to_nat (N.log2 n))) n EmptyString.

Definition show_Z (z : Z) : string :=
  match z with
  | Z0 => "0"%string
  | Zpos p => show_N (Npos p)
  | Zneg p => String "-" (show_N (Npos p))
  end.

Definition show_number (n : number) : string :=
  match n with
  | NaN => "NaN"%string
  | PInf => "Infinity"%string
  | NInf => "-Infinity"%string
  | Fin q =>
    let r := Qred q in
    if (Qden r =? 1)%positive then show_Z (Qnum r)
    else String.append (show_Z (Qnum r))
                       (String "/" (show_Z (Zpos (Qden r))))
  end.
(** * Examples *)

Example split_paragraphs_empty : split_paragraphs [] = [[]].
Proof. reflexivity. Qed.

(** The blank-line pattern takes the whitespace up to the last newline
    of the run; what follows it starts the next paragraph. *)
Example split_paragraphs_run :
  split_paragraphs (str "a" ++ [LF; SP; LF; SP] ++ str "b")
  = [str "a"; SP :: str "b"].
Proof. reflexivity. Qed.

Example hasTech_keywords :
  (hasTech (str "const x"), hasTech (str "constant"), hasTech (str "a let."),
   hasTech (str "_let"), hasCode (str "f(x)"))
  = (true, false, true, false, true).
Proof. reflexivity. Qed.

Example layout_twoParagraphs :
  layout tenPx twoParagraphs
  = mkLayout [str "a"; []; []; str "b"] 4
             [mkSection 0 0 (Fin 1); mkSection 2 3 (Fin 1)].
Proof. vm_compute. reflexivity. Qed.

(** An oversized first word: an empty line, the word, the rest. *)
Example layout_longWord :
  wrappedLines (layout tenPx (longWord ++ str " end"))
  = [[]; longWord; str "end"].
Proof. vm_compute. reflexivity. Qed.

(** Ten seconds of audio for the two paragraphs of [helloScript]: two
    sections, four seconds to share, both shares positive. *)
Example helloScript_durations :
  map (fun s => (startLine s, endLine s)) (sections (layout tenPx helloScript))
  = [(0, 0); (2, 3)] /\
  availableDuration (Fin 10) = Fin 4 /\
  Forall (fun d => exists q, d = Fin q /\ (0 < q)%Q)
         (map (secDur (layout tenPx helloScript) (Fin 10))
              (sections (layout tenPx helloScript))).
Proof.
  split; [vm_compute; reflexivity|]. split; [vm_compute; reflexivity|].
  vm_compute. repeat constructor; eexists; (split; [reflexivity|reflexivity]).
Qed.

(** * Properties of the layout *)

Lemma split_on_nonempty sep s : (1 <= length (split_on sep s))%nat.
Proof.
  induction s as [|c s IH]; simpl; [lia|].
  destruct (c =? sep)%N; simpl; [lia|].
  destruct (split_on sep s); simpl in *; lia.
Qed.

Lemma split_on_no_sep sep s : Forall (fun w => ~ In sep w) (split_on sep s).
Proof.
  induction s as [|c s IH]; simpl.
  - constructor; [intros []|constructor].
  - destruct (N.eqb_spec c sep) as [->|Hne].
    + constructor; [intros []|exact IH].
    + destruct (split_on sep s) as [|w ws].
      * constructor; [|constructor]. intros [H|[]]; congruence.
      * inversion IH; subst. constructor; [|assumption].
        intros [H|H]; [congruence|contradiction].
Qed.

Lemma split_go_nonempty s : forall k cur, (1 <= length (split_go k cur s))%nat.
Proof.
  induction s as [|c s IH]; intros k cur; simpl; [lia|].
  destruct k; [|apply IH].
  destruct (if (c =? LF)%N then match_ws_nl s else None); simpl.
  - lia.
  - apply IH.
Qed.

Lemma grows_refl st : grows st st [].
Proof.
  unfold grows. rewrite app_nil_r. simpl. repeat split; lia.
Qed.

Lemma grows_push l st : grows st (push_line l st) [l].
Proof. unfold grows, push_line; simpl. repeat split; lia. Qed.

Lemma grows_trans st1 st2 st3 n1 n2 :
  grows st1 st2 n1 -> grows st2 st3 n2 -> grows st1 st3 (n1 ++ n2).
Proof.
  intros (Hw1 & Hc1 & Hs1) (Hw2 & Hc2 & Hs2). unfold grows.
  rewrite Hw2, Hw1, Hc2, Hc1, Hs2, Hs1, <- app_assoc.
  repeat split. rewrite length_app. lia.
Qed.

(** ** Complexity scores are finite and non-negative *)

Lemma Qcompare_pos (x : Q) : (0 < x)%Q -> (x ?= 0)%Q = Gt.
Proof. intros H. apply Qgt_alt. exact H. Qed.

Lemma Qcompare_zero (x : Q) : (x == 0)%Q -> (x ?= 0)%Q = Eq.
Proof. intros H. apply Qeq_alt. exact H. Qed.

Lemma sum_lengths_fin (ws : list jsstring) : forall a, (0 <= a)%Q ->
  exists b, fold_left (fun sum w => add sum (of_Z (Z.of_nat (length w))))
                      ws (Fin a) = Fin b /\ (0 <= b)%Q.
Proof.
  induction ws as [|w ws IH]; intros a Ha; simpl.
  - eauto.
  - apply IH.
    assert (0 <= inject_Z (Z.of_nat (length w)))%Q
      by (change 0%Q with (inject_Z 0); rewrite <- Zle_Qle; lia).
    lra.
Qed.

Lemma avgWordLength_nonneg ws :
  (1 <= length ws)%nat -> nonneg (avgWordLength ws).
Proof.
  intros Hlen. unfold avgWordLength.
  change (of_Z 0) with (Fin (inject_Z 0)).
  destruct (sum_lengths_fin ws (inject_Z 0)) as (b & -> & Hb);
    [apply Qle_refl|].
  unfold of_Z.
  assert (Hpos : (0 < inject_Z (Z.of_nat (length ws)))%Q)
    by (change 0%Q with (inject_Z 0); rewrite <- Zlt_Qlt; lia).
  unfold div. rewrite (Qcompare_pos _ Hpos).
  eexists; split; [reflexivity|].
  apply Qle_shift_div_l; lra.
Qed.

Lemma lineComplexity_nonneg line : nonneg (lineComplexity line).
Proof.
  unfold lineComplexity.
  destruct (avgWordLength_nonneg (split_on SP line)) as (a & -> & Ha);
    [apply split_on_nonempty|].
  destruct (hasCode line), (hasTech line); simpl;
    (eexists; split; [reflexivity|]); nra.
Qed.

Lemma add_nonneg a b : nonneg a -> nonneg b -> nonneg (add a b).
Proof.
  intros (x & -> & Hx) (y & -> & Hy). exists (x + y)%Q. split; [reflexivity|lra].
Qed.

(** ** What one paragraph adds to the layout state *)

Section LayoutSteps.

Variable measureText : jsstring -> Q.

(** A property of wrapped lines that holds of the empty line, of every
    text that passed the width test and of every single word. *)
Variable P : jsstring -> Prop.
Hypothesis P_blank : P [].
Hypothesis P_fits :
  forall l, Qle_bool (measureText l) drawableWidth = true -> P l.
Hypothesis P_word : forall w, ~ In SP w -> P w.

Lemma pack_words_grows ws :
  Forall (fun w => ~ In SP w) ws ->
  forall buf st, P buf ->
  exists new,
    grows st (fold_left (pack_word measureText) ws (buf, st)).2 new /\
    Forall P new /\
    P (fold_left (pack_word measureText) ws (buf, st)).1.
Proof.
  induction 1 as [|w ws Hw Hws IH]; intros buf st Hbuf; simpl.
  - exists []. split_and!; auto using grows_refl.
  - destruct (Qle_bool _ drawableWidth) eqn:Hfit.
    + apply IH. apply P_fits. exact Hfit.
    + destruct (IH w (push_line buf st) (P_word w Hw)) as (new & Hg & Hn & Hb).
      exists ([buf] ++ new). split; [|split; [|exact Hb]].
      * eapply grows_trans; [apply grows_push|exact Hg].
      * constructor; assumption.
Qed.

Lemma layout_line_grows score st line :
  nonneg score ->
  exists new,
    grows st (layout_line measureText (score, st) line).2 new /\
    Forall P new /\ (1 <= length new)%nat /\
    nonneg (layout_line measureText (score, st) line).1.
Proof.
  intros Hscore. unfold layout_line, pack_line.
  destruct (trim_is_empty line).
  - exists [[]]. simpl. split_and!; auto using grows_push.
  - destruct (pack_words_grows (split_on SP line) (split_on_no_sep SP line)
                               [] st P_blank) as (new & Hg & Hn & Hb).
    destruct (fold_left _ _ _) as [buf st'] eqn:E. simpl in *.
    exists (new ++ [buf]). split_and!.
    + eapply grows_trans; [exact Hg|apply grows_push].
    + apply Forall_app. auto.
    + rewrite length_app. simpl. lia.
    + apply add_nonneg; [exact Hscore|apply lineComplexity_nonneg].
Qed.

Lemma layout_lines_grows lines :
  forall score st, nonneg score ->
  exists new,
    grows st (fold_left (layout_line measureText) lines (score, st)).2 new /\
    Forall P new /\ (length lines <= length new)%nat /\
    nonneg (fold_left (layout_line measureText) lines (score, st)).1.
Proof.
  induction lines as [|line lines IH]; intros score st Hscore;
    cbn [fold_left].
  - exists []. split_and!; auto using grows_refl.
  - destruct (layout_line_grows score st line Hscore)
      as (n1 & Hg1 & Hn1 & Hl1 & Hs1).
    destruct (layout_line measureText (score, st) line) as [score1 st1].
    simpl in Hg1, Hs1.
    destruct (IH score1 st1 Hs1) as (n2 & Hg2 & Hn2 & Hl2 & Hs2).
    exists (n1 ++ n2). split_and!.
    + eapply grows_trans; eassumption.
    + apply Forall_app. auto.
    + rewrite length_app. simpl in *. lia.
    + exact Hs2.
Qed.

Lemma layout_paragraph_spec n st paragraph i :
  exists body score,
    (1 <= length body)%nat /\ Forall P body /\ nonneg score /\
    let st' := layout_paragraph measureText n st paragraph i in
    wrappedLines st' = wrappedLines st ++ lead i ++ body ++ trail n i /\
    currentLine st' =
      (currentLine st + Z.of_nat (length (lead i ++ body ++ trail n i)))%Z /\
    sections st' =
      sections st ++
      [mkSection (currentLine st)
                 (currentLine st
                  + Z.of_nat (length (lead i ++ body)) - 1)%Z score].
Proof.
  unfold layout_paragraph.
  set (st1 := if (0 <? i)%nat then push_line [] st else st).
  assert (H1 : grows st st1 (lead i)).
  { unfold st1, lead. destruct (0 <? i)%nat;
      [apply grows_push|apply grows_refl]. }
  destruct (layout_lines_grows (split_on LF paragraph) (of_Z 0) st1)
    as (body & Hg & Hb & Hl & Hs).
  { exists (inject_Z 0). split; [reflexivity|apply Qle_refl]. }
  pose proof (split_on_nonempty LF paragraph) as Hne.
  destruct (fold_left _ _ _) as [score st2]. simpl in Hg, Hs.
  exists body, score. split_and!; [lia|exact Hb|exact Hs|..].
  - clear Hb Hs.
    destruct (grows_trans _ _ _ _ _ H1 Hg) as (Hw & Hc & Hsec).
    unfold trail. destruct (Z.of_nat i <? Z.of_nat n - 1)%Z; simpl;
      rewrite Hw; rewrite <- ?app_assoc; try reflexivity.
    rewrite !app_nil_r. reflexivity.
  - destruct (grows_trans _ _ _ _ _ H1 Hg) as (Hw & Hc & Hsec).
    unfold trail. destruct (Z.of_nat i <? Z.of_nat n - 1)%Z; simpl;
      rewrite Hc, ?app_nil_r, ?app_assoc, ?length_app; simpl; lia.
  - destruct (grows_trans _ _ _ _ _ H1 Hg) as (Hw & Hc & Hsec).
    destruct H1 as (_ & Hc1 & _).
    destruct (Z.of_nat i <? Z.of_nat n - 1)%Z; simpl;
      rewrite Hsec, Hc; reflexivity.
Qed.

End LayoutSteps.

Lemma chain_bounds secs e :
  chain secs e ->
  Forall (fun s => (0 <= startLine s <= endLine s)%Z /\ (endLine s <= e)%Z) secs.
Proof.
  induction 1 as [s H0 He|secs e s Hc IH Hs Hle].
  - repeat constructor; lia.
  - apply Forall_app. split.
    + eapply Forall_impl; [exact IH|]. simpl. intros; lia.
    + assert (0 <= e)%Z.
      { inversion Hc; subst; [lia|].
        apply Forall_app in IH as [_ IH]. inversion IH; subst. lia. }
      repeat constructor; lia.
Qed.

Section LayoutInvariant.

Variable measureText : jsstring -> Q.
Variable P : jsstring -> Prop.
Hypothesis P_blank : P [].
Hypothesis P_fits :
  forall l, Qle_bool (measureText l) drawableWidth = true -> P l.
Hypothesis P_word : forall w, ~ In SP w -> P w.

Lemma layout_inv_initial n : layout_inv P n 0 initial_state.
Proof. split; simpl; auto. Qed.

Lemma layout_inv_step n i st paragraph :
  (i < n)%nat -> layout_inv P n i st ->
  layout_inv P n (S i) (layout_paragraph measureText n st paragraph i).
Proof.
  intros Hi [Hcount Hlines Hscores Hsecs Hgaps Hchain].
  destruct (layout_paragraph_spec measureText P P_blank P_fits P_word
                                  n st paragraph i)
    as (body & score & Hbody & HPbody & Hscore & Hw & Hc & Hs).
  set (st' := layout_paragraph measureText n st paragraph i) in *.
  assert (Hlead : Forall P (lead i))
    by (unfold lead; destruct (0 <? i)%nat; repeat constructor; auto).
  assert (Htrail : Forall P (trail n i))
    by (unfold trail; destruct (_ <? _)%Z; repeat constructor; auto).
  assert (Hchain' : exists e, chain (sections st') e /\
            currentLine st' = (e + 1 + (if (S i <? n)%nat then 1 else 0))%Z
            /\ e = (currentLine st + Z.of_nat (length (lead i ++ body)) - 1)%Z
            /\ Forall (fun s => (endLine s + 1 < currentLine st)%Z) (sections st)).
  { eexists. rewrite Hs, Hc. split_and!; [| |reflexivity|].
    - destruct i as [|j].
      + destruct (sections st); [|discriminate]. simpl.
        apply (chain_first (mkSection _ _ _)); simpl.
        * exact Hchain.
        * lia.
      + destruct Hchain as (e & Hch & Hcl).
        apply (chain_next _ e (mkSection _ _ _)); simpl; [exact Hch| |lia].
        destruct (Nat.ltb_spec (S j) n); lia.
    - rewrite !length_app. unfold trail.
      destruct (Nat.ltb_spec (S i) n), (Z.ltb_spec (Z.of_nat i) (Z.of_nat n - 1));
        simpl; lia.
    - destruct i as [|j].
      + destruct (sections st); [constructor|discriminate].
      + destruct Hchain as (e & Hch & Hcl).
        eapply Forall_impl; [apply (chain_bounds _ _ Hch)|].
        simpl. intros s Hb. destruct (Nat.ltb_spec (S j) n); lia. }
  destruct Hchain' as (e & Hch & Hcl & He & Hold).
  split.
  - rewrite Hc, Hw, Hcount, !length_app. lia.
  - rewrite Hw. rewrite !Forall_app. auto.
  - rewrite Hs. apply Forall_app. split; [exact Hscores|].
    repeat constructor. exact Hscore.
  - rewrite Hs, length_app. simpl. lia.
  - rewrite Hs. apply Forall_app. split.
    + apply Forall_forall. intros s Hin _.
      rewrite Forall_forall in Hgaps, Hold.
      specialize (Hgaps s Hin (Hold s Hin)). rewrite Hw.
      apply lookup_app_l_Some. exact Hgaps.
    + repeat constructor. unfold gap_blank. simpl. rewrite Hc, Hw.
      rewrite !length_app. intros Hlt.
      assert (Ht : trail n i = [[]]).
      { unfold trail in *. destruct (_ <? _)%Z; [reflexivity|]. simpl in Hlt. lia. }
      rewrite Ht, !app_assoc.
      rewrite lookup_app_r; rewrite !length_app; [|lia].
      replace (_ - _)%nat with 0%nat by lia. reflexivity.
  - eauto.
Qed.

Lemma layout_inv_forEach n l :
  forall i st, (i + length l = n)%nat -> layout_inv P n i st ->
  layout_inv P n n (forEach_from (layout_paragraph measureText n) i l st).
Proof.
  induction l as [|p l IH]; intros i st Hlen Hinv; simpl in *.
  - assert (i = n) as -> by lia. exact Hinv.
  - apply IH; [lia|]. apply layout_inv_step; [lia|exact Hinv].
Qed.

Lemma layout_inv_layout script :
  layout_inv P (length (split_paragraphs script))
             (length (split_paragraphs script)) (layout measureText script).
Proof.
  unfold layout. apply layout_inv_forEach; [reflexivity|].
  apply layout_inv_initial.
Qed.

End LayoutInvariant.

(** ** Sections and wrapped lines *)

(** C9: for every script, the empty one included, the layout produces at
    least one section: the split on blank-line boundaries yields at least one
    paragraph, each paragraph pushes exactly one section, so there are as
    many sections as paragraphs. *)
Theorem layout_has_a_section (measureText : jsstring -> Q) (script : jsstring) :
  (1 <= length (split_paragraphs script))%nat /\
  (forall n st paragraph i,
      length (sections (layout_paragraph measureText n st paragraph i))
      = S (length (sections st))) /\
  length (sections (layout measureText script))
  = length (split_paragraphs script) /\
  (1 <= length (sections (layout measureText script)))%nat.
Proof.
  pose proof (split_go_nonempty script 0 []) as Hne.
  fold (split_paragraphs script) in Hne.
  pose proof (layout_inv_layout measureText (fun _ => True) I
                (fun _ _ => I) (fun _ _ => I) script) as Hinv.
  split_and!.
  - exact Hne.
  - intros n st paragraph i.
    destruct (layout_paragraph_spec measureText (fun _ => True) I
                (fun _ _ => I) (fun _ _ => I) n st paragraph i)
      as (body & score & _ & _ & _ & _ & _ & Hs).
    rewrite Hs, length_app. simpl. lia.
  - apply (inv_sections _ _ _ _ Hinv).
  - rewrite (inv_sections _ _ _ _ Hinv). exact Hne.
Qed.

Lemma chain_last secs e :
  chain secs e ->
  exists s, secs !! (length secs - 1)%nat = Some s /\ endLine s = e.
Proof.
  destruct 1 as [s|secs e s].
  - exists s. split; reflexivity.
  - exists s. split; [|reflexivity].
    rewrite length_app. simpl.
    rewrite lookup_app_r by lia.
    replace (_ - _)%nat with 0%nat by lia. reflexivity.
Qed.

Lemma lookup_snoc_inv {A} (l : list A) (x y : A) (k : nat) :
  (l ++ [x]) !! k = Some y ->
  l !! k = Some y \/ (k = length l /\ y = x).
Proof.
  intros H. destruct (Nat.lt_ge_cases k (length l)) as [Hlt|Hge].
  - left. rewrite lookup_app_l in H by exact Hlt. exact H.
  - right. rewrite lookup_app_r in H by exact Hge.
    destruct (k - length l)%nat as [|j] eqn:E; simpl in H.
    + split; [lia|congruence].
    + destruct j; discriminate.
Qed.

(** Along a chain, a line up to the end of the last section lies in
    exactly one section or is the line after a section that is not the
    last. *)
Lemma chain_cover secs e :
  chain secs e ->
  forall i, (0 <= i <= e)%Z ->
    (exists k, (exists s, secs !! k = Some s /\ in_section i s) /\
               forall k', (exists s, secs !! k' = Some s /\ in_section i s) ->
                          k' = k) \/
    ((forall k s, secs !! k = Some s -> ~ in_section i s) /\
     exists k s s', secs !! k = Some s /\ secs !! S k = Some s' /\
                    i = (endLine s + 1)%Z /\ startLine s' = (i + 1)%Z).
Proof.
  unfold in_section.
  induction 1 as [s H0 He|secs e s Hc IH Hs Hle]; intros i Hi.
  - left. exists 0%nat. split.
    + exists s. split; [reflexivity|lia].
    + intros [|k'] (s' & Hk & _); [reflexivity|discriminate].
  - pose proof (chain_bounds _ _ Hc) as Hb. rewrite Forall_forall in Hb.
    assert (Hold : forall k s0, secs !! k = Some s0 -> (endLine s0 <= e)%Z).
    { intros k s0 Hk. apply Hb. eapply list_elem_of_lookup_2, Hk. }
    destruct (Z_le_gt_dec i e) as [Hie|Hie];
      [|destruct (Z.eq_dec i (e + 1)) as [Hgap|Hin]].
    + destruct (IH i ltac:(lia)) as [(k & (s0 & Hk & Hin) & Huniq)|(Hnone & Hsep)].
      * left. exists k. split.
        -- exists s0. split; [|exact Hin].
           apply lookup_app_l_Some. exact Hk.
        -- intros k' (s1 & Hk' & Hin').
           apply lookup_snoc_inv in Hk' as [Hk'|[_ ->]]; [|lia].
           apply Huniq. eauto.
      * right. split.
        -- intros k s0 Hk. apply lookup_snoc_inv in Hk as [Hk|[_ ->]]; [|lia].
           eapply Hnone, Hk.
        -- destruct Hsep as (k & s0 & s1 & Hk0 & Hk1 & Heq & Hst).
           exists k, s0, s1. split_and!; auto using lookup_app_l_Some.
    + right. split.
      * intros k s0 Hk. apply lookup_snoc_inv in Hk as [Hk|[_ ->]]; [|lia].
        specialize (Hold _ _ Hk). lia.
      * destruct (chain_last _ _ Hc) as (s0 & Hk0 & He0).
        assert (0 < length secs)%nat by (apply lookup_lt_Some in Hk0; lia).
        exists (length secs - 1)%nat, s0, s. split_and!.
        -- apply lookup_app_l_Some. exact Hk0.
        -- rewrite lookup_app_r by lia.
           replace (_ - _)%nat with 0%nat by lia. reflexivity.
        -- lia.
        -- lia.
    + left. exists (length secs). split.
      * exists s. split; [|lia].
        rewrite lookup_app_r by lia. rewrite Nat.sub_diag. reflexivity.
      * intros k' (s1 & Hk' & Hin').
        apply lookup_snoc_inv in Hk' as [Hk'|[-> _]]; [|reflexivity].
        specialize (Hold _ _ Hk'). lia.
Qed.

(** C3, as stated, fails: the blank line pushed after the first of two
    paragraphs (wrapped line 1) lies in no section. *)
Lemma sections_partition_fails :
  ~ sections_partition (layout tenPx twoParagraphs).
Proof.
  intros H.
  assert (H1 : in_one_section (layout tenPx twoParagraphs) 1)
    by (apply H; split; [lia|vm_compute; reflexivity]).
  destruct H1 as (k & (s & Hk & Hin) & _).
  unfold in_section in Hin.
  assert (Hsecs : sections (layout tenPx twoParagraphs)
                  = [mkSection 0 0 (Fin 1); mkSection 2 3 (Fin 1)])
    by (vm_compute; reflexivity).
  rewrite Hsecs in Hk.
  destruct k as [|[|k]]; simpl in Hk; simplify_eq; simpl in Hin; lia.
Qed.

(** C3, amended: the sections are disjoint and in order, the first starts
    at wrapped line 0 and the last ends at the last wrapped line, and
    consecutive sections are separated by exactly one wrapped line, which
    lies in no section and is empty; every other wrapped line lies in exactly
    one section. *)
Theorem sections_cover_up_to_separators
        (measureText : jsstring -> Q) (script : jsstring) :
  let st := layout measureText script in
  chain (sections st) (Z.of_nat (length (wrappedLines st)) - 1) /\
  forall i, (0 <= i < Z.of_nat (length (wrappedLines st)))%Z ->
            in_one_section st i \/ separator st i.
Proof.
  intros st.
  pose proof (layout_inv_layout measureText (fun _ => True) I
                (fun _ _ => I) (fun _ _ => I) script) as Hinv.
  fold st in Hinv.
  pose proof (split_go_nonempty script 0 []) as Hne.
  fold (split_paragraphs script) in Hne.
  destruct Hinv as [Hcount _ _ _ Hgaps Hchain].
  destruct (length (split_paragraphs script)) as [|n] eqn:En; [lia|].
  destruct Hchain as (e & Hch & Hcl).
  rewrite Nat.ltb_irrefl in Hcl.
  assert (He : e = (Z.of_nat (length (wrappedLines st)) - 1)%Z) by lia.
  rewrite <- He. split; [exact Hch|].
  intros i Hi.
  destruct (chain_cover _ _ Hch i ltac:(lia)) as [Hone|(Hnone & Hsep)].
  - left. exact Hone.
  - right. destruct Hsep as (k & s & s' & Hk & Hk' & Hik & Hs').
    split_and!.
    + intros k0 (s0 & Hk0 & Hin). exact (Hnone _ _ Hk0 Hin).
    + rewrite Forall_forall in Hgaps.
      rewrite Hik. apply Hgaps; [eapply list_elem_of_lookup_2, Hk|lia].
    + exists k, s, s'. auto.
Qed.

(** ** Word packing *)

Lemma pack_words_extend (measureText : jsstring -> Q) ws :
  forall buf st,
  exists new, grows st (fold_left (pack_word measureText) ws (buf, st)).2 new.
Proof.
  induction ws as [|w ws IH]; intros buf st; simpl.
  - exists []. apply grows_refl.
  - destruct (Qle_bool _ drawableWidth).
    + apply IH.
    + destruct (IH w (push_line buf st)) as (new & Hg).
      exists ([buf] ++ new).
      eapply grows_trans; [apply grows_push|exact Hg].
Qed.

Section OversizedWord.

Variable measureText : jsstring -> Q.
(** The empty text fits, and appending to a text does not make it
    narrower. *)
Hypothesis Hblank : (measureText [] <= drawableWidth)%Q.
Hypothesis Hmono :
  forall a b, (measureText a <= measureText (a ++ SP :: b))%Q.

Lemma too_wide l :
  (drawableWidth < measureText l)%Q ->
  Qle_bool (measureText l) drawableWidth = false.
Proof.
  intros Hlt. destruct (Qle_bool _ _) eqn:E; [|reflexivity].
  apply Qle_bool_iff in E. lra.
Qed.

(** Once an oversized word is the line buffer, it is pushed as a line
    of its own. *)
Lemma lone_word_stays post w st :
  (drawableWidth < measureText w)%Q ->
  exists rest,
    wrappedLines (let '(buf, st') :=
                    fold_left (pack_word measureText) post (w, st) in
                  push_line buf st')
    = wrappedLines st ++ w :: rest.
Proof.
  intros Hw.
  assert (Hne : truthy w = true).
  { destruct w; [lra|reflexivity]. }
  destruct post as [|p post]; simpl.
  - exists []. reflexivity.
  - rewrite Hne, too_wide by (specialize (Hmono w p); lra).
    destruct (pack_words_extend measureText post p (push_line w st))
      as (new & Hg & _).
    destruct (fold_left _ _ _) as [buf st']. simpl in *.
    exists (new ++ [buf]). rewrite Hg, <- !app_assoc. reflexivity.
Qed.

(** C10: when a word wider than the drawable width is measured while
    the line buffer is empty, the empty buffer is pushed as a wrapped line
    and the word becomes the buffer; in the lines of the source line, the
    empty line comes immediately before the line of the word, which holds
    that word alone. *)
Theorem oversized_word_on_empty_buffer pre w post st st1 :
  fold_left (pack_word measureText) pre ([], st) = ([], st1) ->
  (drawableWidth < measureText w)%Q ->
  pack_word measureText ([], st1) w = (w, push_line [] st1) /\
  exists rest,
    wrappedLines (pack_line measureText (pre ++ w :: post) st)
    = wrappedLines st1 ++ [] :: w :: rest.
Proof.
  intros Hpre Hw.
  assert (Hstep : pack_word measureText ([], st1) w = (w, push_line [] st1)).
  { unfold pack_word. simpl. rewrite too_wide by exact Hw. reflexivity. }
  split; [exact Hstep|].
  unfold pack_line. rewrite fold_left_app, Hpre. cbn [fold_left].
  rewrite Hstep.
  destruct (lone_word_stays post w (push_line [] st1) Hw) as (rest & Hr).
  exists rest. rewrite Hr. simpl. rewrite <- app_assoc. reflexivity.
Qed.

End OversizedWord.

Lemma tenPx_mono a b : (tenPx a <= tenPx (a ++ SP :: b))%Q.
Proof.
  unfold tenPx. rewrite <- Zle_Qle, length_app. simpl. lia.
Qed.

Lemma oversized_word_on_empty_buffer_witness :
  fold_left (pack_word tenPx) [] ([], initial_state) = ([], initial_state) /\
  (drawableWidth < tenPx longWord)%Q /\
  pack_word tenPx ([], initial_state) longWord
  = (longWord, push_line [] initial_state) /\
  exists rest,
    wrappedLines (pack_line tenPx ([] ++ longWord :: [str "end"]) initial_state)
    = wrappedLines initial_state ++ [] :: longWord :: rest.
Proof.
  split; [reflexivity|]. split; [vm_compute; reflexivity|].
  apply (oversized_word_on_empty_buffer tenPx).
  - vm_compute. discriminate.
  - exact tenPx_mono.
  - reflexivity.
  - vm_compute. reflexivity.
Defined.

(** * Properties of the duration allocation *)

Section Allocation.

Variable st : layout_state.
Variables D T : Q.
Hypothesis Htotal : totalComplexity (sections st) = Fin T.

Let A : Q := (D + - 6)%Q.



(** With a zero total, a section of complexity zero gets NaN. *)
Lemma secDur_nan s c :
  (T == 0)%Q -> (c == 0)%Q -> complexity s = Fin c ->
  secDur st (Fin D) s = NaN.
Proof.
  intros HT H0 Hc. unfold secDur. rewrite Htotal, Hc.
  unfold div. rewrite (Qcompare_zero _ HT), (Qcompare_zero _ H0).
  reflexivity.
Qed.

End Allocation.

(** ** Totals of non-negative complexities *)

Lemma total_ge secs : forall b : Q,
  Forall (fun s => nonneg (complexity s)) secs ->
  exists t, fold_left (fun s sec => add s (complexity sec)) secs (Fin b) = Fin t
            /\ (b <= t)%Q.
Proof.
  induction secs as [|s secs IH]; intros b Hall; cbn [fold_left].
  - exists b. split; [reflexivity|lra].
  - inversion Hall as [|? ? (c & Hc & Hc0) Hrest]; subst.
    rewrite Hc. change (add (Fin b) (Fin c)) with (Fin (b + c)).
    destruct (IH (b + c)%Q Hrest) as (t' & Ht' & Hle).
    exists t'. split; [exact Ht'|lra].
Qed.

Lemma total_zero secs : forall b t,
  Forall (fun s => nonneg (complexity s)) secs ->
  fold_left (fun s sec => add s (complexity sec)) secs (Fin b) = Fin t ->
  (t == b)%Q ->
  Forall (fun s => exists c, complexity s = Fin c /\ (c == 0)%Q) secs.
Proof.
  induction secs as [|s secs IH]; intros b t Hall Ht Hb; cbn [fold_left] in Ht.
  - constructor.
  - inversion Hall as [|? ? (c & Hc & Hc0) Hrest]; subst.
    rewrite Hc in Ht. change (add (Fin b) (Fin c)) with (Fin (b + c)) in Ht.
    destruct (total_ge secs (b + c)%Q Hrest) as (t' & Ht' & Hle).
    rewrite Ht in Ht'. inversion Ht'; subst t'.
    constructor.
    + exists c. split; [exact Hc|lra].
    + apply (IH (b + c)%Q t Hrest Ht). lra.
Qed.

Lemma add_nan_r a : add a NaN = NaN.
Proof. destruct a; reflexivity. Qed.

Lemma div_fin (x y : Q) : (0 < y)%Q -> div (Fin x) (Fin y) = Fin (x / y).
Proof. intros H. unfold div. rewrite (Qcompare_pos _ H). reflexivity. Qed.

(** The complexity of every section of a layout is finite and not
    negative. *)
Lemma layout_scores measureText script :
  Forall (fun s => nonneg (complexity s))
         (sections (layout measureText script)).
Proof.
  exact (inv_scores _ _ _ _
           (layout_inv_layout measureText (fun _ => True) I
              (fun _ _ => I) (fun _ _ => I) script)).
Qed.

(** C4, as stated, fails: the single section of the empty script
    (complexity 0) is not given the available 4 seconds of a 10 second
    audio. *)
Lemma equal_shares_fails : ~ equal_shares (layout tenPx []) 10%Q.
Proof.
  unfold equal_shares. intros H.
  assert (Hs : sections (layout tenPx []) = [mkSection 0 0 (Fin 0)])
    by reflexivity.
  rewrite Hs in H. inversion H as [|? ? Hsame _]; subst.
  vm_compute in Hsame. exact Hsame.
Qed.

(** ** The time tests of the emitted text *)

Lemma window_ends_app (a b : text) :
  window_ends ((a ++ [Lit ","]) ++ b)
  = window_ends (a ++ [Lit ","]) ++ window_ends b.
Proof.
  induction a as [|tk a IH].
  - simpl. destruct b as [|[s|n] b]; reflexivity.
  - destruct tk as [s|n]; [|exact IH].
    change (window_ends ((Lit s :: a ++ [Lit ","]) ++ b))
      with (window_ends (Lit s :: (a ++ [Lit ","]) ++ b)).
    destruct a as [|[s'|n'] a].
    + simpl. destruct b as [|[s'|n'] b]; reflexivity.
    + cbn [app window_ends] in IH |- *. exact IH.
    + cbn [app window_ends] in IH |- *.
      destruct (String.eqb s "if(lt(t,"); [|exact IH].
      cbn [app]. f_equal. exact IH.
Qed.

(** One turn of the loop adds one time test, against the new running
    time. *)
Lemma window_ends_turn st Dn (pre : text) (sec : section) (t0 : number) :
  exists pre',
    scroll_turn st Dn (pre ++ [Lit ","], t0) sec
    = (pre' ++ [Lit ","], add t0 (secDur st Dn sec)) /\
    window_ends (pre' ++ [Lit ","])
    = window_ends (pre ++ [Lit ","]) ++ [add t0 (secDur st Dn sec)].
Proof.
  cbn [scroll_turn].
  exists (pre ++ [Lit ","]
              ++ [Lit "if(lt(t,"; Num (add t0 (secDur st Dn sec)); Lit "),"]
              ++ formula st Dn sec t0).
  split.
  - rewrite <- !app_assoc. reflexivity.
  - rewrite <- !app_assoc.
    change (pre ++ [Lit ","] ++ ?x) with (pre ++ [Lit ","] ++ x).
    rewrite (app_assoc pre [Lit ","]), window_ends_app. reflexivity.
Qed.

Lemma window_ends_turns st Dn secs : forall (pre : text) (t0 : number),
  exists pre',
    (fold_left (scroll_turn st Dn) secs (pre ++ [Lit ","], t0)).1
    = pre' ++ [Lit ","] /\
    window_ends (pre' ++ [Lit ","])
    = window_ends (pre ++ [Lit ","]) ++ boundaries st Dn secs t0.
Proof.
  induction secs as [|sec secs IH]; intros pre t0; cbn [fold_left boundaries].
  - exists pre. split; [reflexivity|]. rewrite app_nil_r. reflexivity.
  - destruct (window_ends_turn st Dn pre sec t0) as (pre1 & E1 & W1).
    rewrite E1.
    destruct (IH pre1 (add t0 (secDur st Dn sec))) as (pre' & E & W).
    exists pre'. split; [exact E|].
    rewrite W, W1, <- app_assoc. reflexivity.
Qed.

Lemma text_of_pair (p : text * number) (rest : text) :
  (let '(expr, _) := p in expr ++ rest) = p.1 ++ rest.
Proof. destruct p. reflexivity. Qed.

(** The time tests of the emitted text compare [t] with the initial
    delay, then with the running time after each section. *)
Lemma window_ends_generateScrollExpression st Dn :
  window_ends (generateScrollExpression st Dn)
  = initialDelay :: boundaries st Dn (sections st) initialDelay.
Proof.
  unfold generateScrollExpression.
  destruct (window_ends_turns st Dn (sections st)
              [Lit "if(lt(t,"; Num initialDelay; Lit "),"; Num (Fin paddingY)]
              initialDelay) as (pre' & E & W).
  change ([Lit "if(lt(t,"; Num initialDelay; Lit "),"; Num (Fin paddingY)]
            ++ [Lit ","]) with scroll_head in E, W.
  rewrite text_of_pair. unfold text in *.
  rewrite E, window_ends_app, W. cbn [window_ends].
  rewrite app_nil_r. reflexivity.
Qed.

Lemma boundaries_nan st Dn secs :
  Forall (fun s => secDur st Dn s = NaN) secs ->
  forall t0, boundaries st Dn secs t0 = map (fun _ => NaN) secs.
Proof.
  induction 1 as [|s secs Hs _ IH]; intros t0; cbn [boundaries map].
  - reflexivity.
  - rewrite Hs, add_nan_r, IH. reflexivity.
Qed.

(** C4, amended: when the total complexity is zero, the duration of every
    section is [0 / 0 * availableDuration], which is NaN, not an equal share;
    the time tests written into the scroll expression then compare [t] with
    the initial delay and, for every section, with NaN. *)
Theorem zero_total_gives_nan (measureText : jsstring -> Q)
        (script : jsstring) (D T : Q) :
  let st := layout measureText script in
  totalComplexity (sections st) = Fin T -> (T == 0)%Q ->
  Forall (fun s => secDur st (Fin D) s = NaN) (sections st) /\
  window_ends (generateScrollExpression st (Fin D))
  = initialDelay :: map (fun _ => NaN) (sections st).
Proof.
  intros st Htotal HT.
  assert (Hnan : Forall (fun s => secDur st (Fin D) s = NaN) (sections st)).
  { pose proof (total_zero (sections st) 0 T
                  (layout_scores measureText script) Htotal HT) as Hz.
    eapply Forall_impl; [exact Hz|].
    intros s (c & Hc & Hc0). eapply secDur_nan; eassumption. }
  split; [exact Hnan|].
  rewrite window_ends_generateScrollExpression, (boundaries_nan _ _ _ Hnan).
  reflexivity.
Qed.

Lemma zero_total_gives_nan_witness :
  totalComplexity (sections (layout tenPx [])) = Fin 0 /\ (0 == 0)%Q /\
  Forall (fun s => secDur (layout tenPx []) (Fin 10) s = NaN)
         (sections (layout tenPx [])) /\
  window_ends (generateScrollExpression (layout tenPx []) (Fin 10))
  = initialDelay :: map (fun _ => NaN) (sections (layout tenPx [])).
Proof.
  split; [reflexivity|]. split; [reflexivity|].
  apply (zero_total_gives_nan tenPx [] 10 0); reflexivity.
Defined.

(** ** Durations as shares of the available duration *)





(** * The text of the scroll expression *)

Lemma count_char_app c (a b : string) :
  count_char c (String.append a b) = (count_char c a + count_char c b)%nat.
Proof.
  induction a as [|x a IH]; simpl; [reflexivity|]. rewrite IH. lia.
Qed.

Lemma closes_repeat n :
  opens (repeat_string ")" n) = 0%nat /\ closes (repeat_string ")" n) = n.
Proof.
  unfold opens, closes. induction n as [|n [IHo IHc]]; [split; reflexivity|].
  cbn [repeat_string]. rewrite !count_char_app, IHo, IHc. split; reflexivity.
Qed.

Lemma string_append_assoc (a b c : string) :
  String.append (String.append a b) c = String.append a (String.append b c).
Proof.
  induction a as [|x a IH]; [reflexivity|].
  change (String x (String.append (String.append a b) c)
          = String x (String.append a (String.append b c))).
  rewrite IH. reflexivity.
Qed.

Lemma render_app show (a b : text) :
  render show (a ++ b) = String.append (render show a) (render show b).
Proof.
  induction a as [|[s|n] a IH]; cbn [app render].
  - reflexivity.
  - rewrite IH. symmetry. apply string_append_assoc.
  - rewrite IH. symmetry. apply string_append_assoc.
Qed.

(** Reading a text changes the depth by its opened less its closed
    parentheses. *)
Lemma depth_counts s : forall d d',
  depth d s = Some d' -> (d + opens s = d' + closes s)%nat.
Proof.
  unfold opens, closes.
  induction s as [|a s IH]; intros d d' H; cbn [depth count_char] in *.
  - inversion H. lia.
  - destruct (Ascii.eqb a "(") eqn:Eo.
    + apply Ascii.eqb_eq in Eo. subst a. specialize (IH _ _ H).
      simpl. simpl in IH. lia.
    + destruct (Ascii.eqb a ")") eqn:Ec.
      * destruct d as [|d]; [discriminate|]. specialize (IH _ _ H).
        simpl. lia.
      * specialize (IH _ _ H). simpl. lia.
Qed.

Section Parentheses.

Variable show : number -> string.
Hypothesis Hshow : forall n, opens (show n) = 0%nat /\ closes (show n) = 0%nat.

(** One turn of the loop opens four parentheses and closes three. *)
Lemma turns_count st Dn secs : forall (e : text) (t0 : number),
  opens (render show (fold_left (scroll_turn st Dn) secs (e, t0)).1)
  = (opens (render show e) + 4 * length secs)%nat /\
  closes (render show (fold_left (scroll_turn st Dn) secs (e, t0)).1)
  = (closes (render show e) + 3 * length secs)%nat.
Proof.
  induction secs as [|sec secs IH]; intros e t0; cbn [fold_left length].
  - cbn [fst]. split; lia.
  - cbn [scroll_turn]. 
    destruct (IH (e ++ [Lit "if(lt(t,"; Num (add t0 (secDur st Dn sec));
                        Lit "),"] ++ formula st Dn sec t0 ++ [Lit ","])
                 (add t0 (secDur st Dn sec))) as [Ho Hc].
    assert (Hturn :
      opens (render show
               (e ++ [Lit "if(lt(t,"; Num (add t0 (secDur st Dn sec));
                      Lit "),"] ++ formula st Dn sec t0 ++ [Lit ","]))
      = (opens (render show e) + 4)%nat /\
      closes (render show
                (e ++ [Lit "if(lt(t,"; Num (add t0 (secDur st Dn sec));
                       Lit "),"] ++ formula st Dn sec t0 ++ [Lit ","]))
      = (closes (render show e) + 3)%nat).
    { unfold opens, closes. rewrite !render_app, !count_char_app.
      cbn [formula app render]. rewrite !count_char_app.
      pose proof (Hshow (add t0 (secDur st Dn sec))) as [Ha Ha'].
      pose proof (Hshow (sectionStart sec)) as [Hb Hb'].
      pose proof (Hshow t0) as [Hd Hd'].
      pose proof (Hshow (div (secDur st Dn sec) speedFactor)) as [He He'].
      pose proof (Hshow (sub (sectionEnd sec) (sectionStart sec)))
        as [Hf Hf'].
      unfold opens, closes in *.
      rewrite Ha, Ha', Hb, Hb', Hd, Hd', He, He', Hf, Hf'.
      split; vm_compute count_char; lia. }
    destruct Hturn as [Hto Htc].
    split; (etransitivity; [first [exact Ho|exact Hc]|]); lia.
Qed.

Lemma head_count :
  opens (render show scroll_head) = 2%nat /\
  closes (render show scroll_head) = 1%nat.
Proof.
  unfold scroll_head, opens, closes. cbn [render].
  rewrite !count_char_app.
  pose proof (Hshow initialDelay) as [Ha Ha'].
  pose proof (Hshow (Fin paddingY)) as [Hb Hb'].
  unfold opens, closes in *. rewrite Ha, Ha', Hb, Hb'.
  split; vm_compute count_char; lia.
Qed.

Lemma tail_count st n :
  opens (render show [Num (finalOffset st); Lit (repeat_string ")" n)])
  = 0%nat /\
  closes (render show [Num (finalOffset st); Lit (repeat_string ")" n)]) = n.
Proof.
  unfold opens, closes. cbn [render]. rewrite !count_char_app.
  pose proof (Hshow (finalOffset st)) as [Ha Ha'].
  pose proof (closes_repeat n) as [Hb Hb'].
  unfold opens, closes in *. rewrite Ha, Ha', Hb, Hb'.
  split; vm_compute count_char; lia.
Qed.

Lemma expression_count st Dn :
  opens (render show (generateScrollExpression st Dn))
  = (2 + 4 * length (sections st))%nat /\
  closes (render show (generateScrollExpression st Dn))
  = (1 + 4 * length (sections st))%nat.
Proof.
  unfold generateScrollExpression. rewrite text_of_pair.
  destruct (turns_count st Dn (sections st) scroll_head initialDelay)
    as [Ho Hc].
  destruct head_count as [Hho Hhc].
  destruct (tail_count st (length (sections st))) as [Hto Htc].
  unfold opens, closes in *. rewrite render_app, !count_char_app.
  unfold text in *. rewrite Ho, Hc, Hho, Hhc, Hto, Htc. split; lia.
Qed.

End Parentheses.

(** C1: the text that [generateScrollExpression] builds is, for every
    layout and every duration, short of one closing parenthesis: with [n]
    sections it opens [2 + 4 n] parentheses and closes [1 + 4 n] (the head
    and every turn leave one conditional open, and only [n] are closed at
    the end).  The text handed to the encoder is therefore not an
    expression, and no scroll position is defined by it.  The printing of
    numbers is any that writes no parenthesis, as that of the language. *)
Theorem scroll_expression_unclosed (show : number -> string)
        (st : layout_state) (duration : number) :
  (forall n, opens (show n) = 0%nat /\ closes (show n) = 0%nat) ->
  let s := render show (generateScrollExpression st duration) in
  opens s = (2 + 4 * length (sections st))%nat /\
  closes s = (1 + 4 * length (sections st))%nat /\
  balanced s = false.
Proof.
  intros Hshow s.
  destruct (expression_count show Hshow st duration) as [Ho Hc].
  fold s in Ho, Hc. split; [exact Ho|]. split; [exact Hc|].
  unfold balanced. destruct (depth 0 s) as [[|d]|] eqn:E; try reflexivity.
  apply depth_counts in E. lia.
Qed.

Lemma show_digit_plain (r : N) :
  (r < 10)%N ->
  Ascii.eqb (ascii_of_N (48 + r)) "(" = false /\
  Ascii.eqb (ascii_of_N (48 + r)) ")" = false.
Proof.
  intros H.
  assert (E : (r = 0 \/ r = 1 \/ r = 2 \/ r = 3 \/ r = 4 \/ r = 5 \/ r = 6
               \/ r = 7 \/ r = 8 \/ r = 9)%N) by lia.
  repeat (destruct E as [->|E]; [split; reflexivity|]).
  subst r. split; reflexivity.
Qed.

Lemma show_digits_plain fuel : forall n acc,
  opens acc = 0%nat /\ closes acc = 0%nat ->
  opens (show_digits fuel n acc) = 0%nat /\
  closes (show_digits fuel n acc) = 0%nat.
Proof.
  induction fuel as [|fuel IH]; intros n acc Hacc; cbn [show_digits].
  - exact Hacc.
  - assert (Hr : (n mod 10 < 10)%N) by (apply N.mod_lt; discriminate).
    destruct (show_digit_plain _ Hr) as [Eo Ec].
    assert (Hacc' : opens (String (ascii_of_N (48 + n mod 10)) acc) = 0%nat /\
                    closes (String (ascii_of_N (48 + n mod 10)) acc) = 0%nat).
    { unfold opens, closes in *. cbn [count_char].
      rewrite Eo, Ec. destruct Hacc as [-> ->]. split; reflexivity. }
    destruct (n <? 10)%N; [exact Hacc'|apply IH, Hacc'].
Qed.

Lemma show_Z_plain z : opens (show_Z z) = 0%nat /\ closes (show_Z z) = 0%nat.
Proof.
  destruct z as [|p|p]; cbn [show_Z].
  - split; reflexivity.
  - apply show_digits_plain. split; reflexivity.
  - pose proof (show_digits_plain (S (N.to_nat (N.log2 (N.pos p)))) (N.pos p)
                  EmptyString (conj eq_refl eq_refl)) as [Ho Hc].
    unfold show_N, opens, closes in *. cbn [count_char].
    rewrite Ho, Hc. split; reflexivity.
Qed.

Lemma show_number_plain n :
  opens (show_number n) = 0%nat /\ closes (show_number n) = 0%nat.
Proof.
  destruct n as [q| | |]; cbn [show_number]; try (split; reflexivity).
  cbv zeta. destruct (Qden (Qred q) =? 1)%positive; [apply show_Z_plain|].
  pose proof (show_Z_plain (Qnum (Qred q))) as [Ho Hc].
  pose proof (show_Z_plain (Z.pos (Qden (Qred q)))) as [Ho' Hc'].
  unfold opens, closes in *. rewrite !count_char_app. cbn [count_char].
  rewrite Ho, Hc, Ho', Hc'. split; reflexivity.
Qed.

Lemma scroll_expression_unclosed_witness :
  (forall n, opens (show_number n) = 0%nat /\ closes (show_number n) = 0%nat) /\
  let s := render show_number
                  (generateScrollExpression (layout tenPx twoParagraphs)
                                            (Fin 10)) in
  opens s = (2 + 4 * length (sections (layout tenPx twoParagraphs)))%nat /\
  closes s = (1 + 4 * length (sections (layout tenPx twoParagraphs)))%nat /\
  balanced s = false.
Proof.
  split; [exact show_number_plain|].
  exact (scroll_expression_unclosed show_number (layout tenPx twoParagraphs)
                                    (Fin 10) show_number_plain).
Defined.

(** * Properties of the invocation *)

Lemma append_cancel (p s1 s2 : string) :
  (p ++ s1 = p ++ s2)%string -> s1 = s2.
Proof.
  induction p as [|a p IH]; simpl; intros H; [exact H|].
  injection H as H. apply IH. exact H.
Qed.

Lemma tmp_path_ne (jobId s1 s2 : string) :
  s1 <> s2 -> ("/tmp/" ++ jobId ++ s1 <> "/tmp/" ++ jobId ++ s2)%string.
Proof.
  intros Hne H. apply Hne.
  eapply append_cancel, append_cancel, H.
Qed.

(** Up to the crop-filter run: when rendering, saving the image and
    probing succeed, the encoder is invoked with the scroll expression built
    for the probed duration, whatever that duration is. *)
Lemma reaches_encoder c script audio jobId w png u md :
  let st := layout (measureText c) script in
  renderPng c (wrappedLines st) (totalHeight st) = Resolved png ->
  saveScrollImage c jobId png = Resolved u ->
  ffprobe c audio = Resolved md ->
  exists rest,
    encoderCalls (generateScrollingScriptVideo c script audio jobId w).2
    = encoderCalls w ++ scrollCall c script jobId (or_zero md) :: rest.
Proof.
  intros st Hpng Hsave Hprobe.
  unfold generateScrollingScriptVideo, scrollCall. fold st.
  pose proof (tmp_path_ne jobId "-scroll.png" "-audio.wav" ltac:(discriminate)).
  pose proof (tmp_path_ne jobId "-scroll.png" "-video.mp4" ltac:(discriminate)).
  pose proof (tmp_path_ne jobId "-scroll.png" "-final.mp4" ltac:(discriminate)).
  pose proof (tmp_path_ne jobId "-audio.wav" "-video.mp4" ltac:(discriminate)).
  pose proof (tmp_path_ne jobId "-audio.wav" "-final.mp4" ltac:(discriminate)).
  pose proof (tmp_path_ne jobId "-video.mp4" "-final.mp4" ltac:(discriminate)).
  set (tmpImage := ("/tmp/" ++ jobId ++ "-scroll.png")%string) in *.
  set (tmpAudio := ("/tmp/" ++ jobId ++ "-audio.wav")%string) in *.
  set (tmpVideo := ("/tmp/" ++ jobId ++ "-video.mp4")%string) in *.
  set (tmpFinal := ("/tmp/" ++ jobId ++ "-final.mp4")%string) in *.
  unfold mbind, M_bind, bind, lift, getAudioDuration, createScrollVideo,
    mergeAudio, mbind, M_bind, bind, lift, readFileSync, writeFileSync,
    record, rmSync, mret, M_ret, ret.
  rewrite Hpng, Hsave. run_fs. rewrite Hprobe. run_fs.
  destruct (ffmpegScroll c png _ _) as [video|e]; [|eexists; reflexivity].
  run_fs.
  destruct (ffmpegMux c video audio) as [final|e]; run_fs;
    [|eexists; rewrite <- app_assoc; reflexivity].
  destruct (saveScrollVideo c jobId final); run_fs;
    eexists; rewrite <- app_assoc; reflexivity.
Qed.

(** A run in which every collaborator succeeds resolves with the muxed
    video and leaves none of its four temp files behind. *)
Lemma success_removes_temp_files c script audio jobId w png u md video final u' :
  let st := layout (measureText c) script in
  renderPng c (wrappedLines st) (totalHeight st) = Resolved png ->
  saveScrollImage c jobId png = Resolved u ->
  ffprobe c audio = Resolved md ->
  ffmpegScroll c png (generateScrollExpression st (or_zero md)) (or_zero md)
  = Resolved video ->
  ffmpegMux c video audio = Resolved final ->
  saveScrollVideo c jobId final = Resolved u' ->
  let r := generateScrollingScriptVideo c script audio jobId w in
  r.1 = Resolved final /\
  Forall (fun path => files r.2 !! path = None) (tmpFiles jobId).
Proof.
  intros st Hpng Hsave Hprobe Hscroll Hmux Hsavev.
  unfold generateScrollingScriptVideo, tmpFiles. fold st.
  pose proof (tmp_path_ne jobId "-scroll.png" "-audio.wav" ltac:(discriminate)).
  pose proof (tmp_path_ne jobId "-scroll.png" "-video.mp4" ltac:(discriminate)).
  pose proof (tmp_path_ne jobId "-scroll.png" "-final.mp4" ltac:(discriminate)).
  pose proof (tmp_path_ne jobId "-audio.wav" "-video.mp4" ltac:(discriminate)).
  pose proof (tmp_path_ne jobId "-audio.wav" "-final.mp4" ltac:(discriminate)).
  pose proof (tmp_path_ne jobId "-video.mp4" "-final.mp4" ltac:(discriminate)).
  cbn [map].
  set (tmpImage := ("/tmp/" ++ jobId ++ "-scroll.png")%string) in *.
  set (tmpAudio := ("/tmp/" ++ jobId ++ "-audio.wav")%string) in *.
  set (tmpVideo := ("/tmp/" ++ jobId ++ "-video.mp4")%string) in *.
  set (tmpFinal := ("/tmp/" ++ jobId ++ "-final.mp4")%string) in *.
  unfold mbind, M_bind, bind, lift, getAudioDuration, createScrollVideo,
    mergeAudio, mbind, M_bind, bind, lift, readFileSync, writeFileSync,
    record, rmSync, mret, M_ret, ret.
  rewrite Hpng, Hsave. run_fs. rewrite Hprobe. run_fs.
  rewrite Hscroll. run_fs. rewrite Hmux. run_fs. rewrite Hsavev. run_fs.
  split; [reflexivity|].
  repeat constructor;
    repeat (rewrite lookup_delete_eq
            || rewrite lookup_delete_ne by congruence); reflexivity.
Qed.

(** C5, as stated, fails: with five seconds of audio and an initial delay
    of six, the invocation resolves with the muxed video after both encoder
    runs. *)
Lemma short_audio_not_rejected :
  (generateScrollingScriptVideo (happy (Fin 5)) (str "Hello") [7%N] "job"
                                emptyWorld).1 = Resolved [3%N] /\
  length (encoderCalls
            (generateScrollingScriptVideo (happy (Fin 5)) (str "Hello") [7%N]
                                          "job" emptyWorld).2) = 2%nat /\
  ~ fails_fast (happy (Fin 5)) (str "Hello") [7%N] "job" emptyWorld.
Proof.
  split; [vm_compute; reflexivity|]. split; [vm_compute; reflexivity|].
  unfold fails_fast. intros [H _]. vm_compute in H. exact H.
Qed.

(** C5, amended: an audio duration at most the initial delay raises no
    error of its own: the available duration is then zero or negative, the
    scroll expression is still built for it and handed to the crop-filter run
    of the encoder, provided rendering, saving the image and probing
    succeeded. *)
Theorem short_audio_reaches_encoder c script audio jobId w png u (d : Q) :
  let st := layout (measureText c) script in
  renderPng c (wrappedLines st) (totalHeight st) = Resolved png ->
  saveScrollImage c jobId png = Resolved u ->
  ffprobe c audio = Resolved (Some (Fin d)) ->
  (d <= 6)%Q ->
  let duration := or_zero (Some (Fin d)) in
  (exists a, availableDuration duration = Fin a /\ (a <= 0)%Q) /\
  exists rest,
    encoderCalls (generateScrollingScriptVideo c script audio jobId w).2
    = encoderCalls w ++ scrollCall c script jobId duration :: rest.
Proof.
  intros st Hpng Hsave Hprobe Hd duration. split.
  - unfold duration, or_zero, is_zero.
    destruct (d ?= 0)%Q eqn:E; eexists; (split; [reflexivity|]);
      try lra. vm_compute. discriminate.
  - exact (reaches_encoder c script audio jobId w png u _ Hpng Hsave Hprobe).
Qed.

Lemma short_audio_reaches_encoder_witness :
  renderPng (happy (Fin 5))
            (wrappedLines (layout (measureText (happy (Fin 5))) (str "Hello")))
            (totalHeight (layout (measureText (happy (Fin 5))) (str "Hello")))
  = Resolved [1%N] /\
  saveScrollImage (happy (Fin 5)) "job" [1%N] = Resolved tt /\
  ffprobe (happy (Fin 5)) [7%N] = Resolved (Some (Fin 5)) /\
  (5 <= 6)%Q /\
  (exists a, availableDuration (or_zero (Some (Fin 5))) = Fin a /\ (a <= 0)%Q) /\
  exists rest,
    encoderCalls (generateScrollingScriptVideo (happy (Fin 5)) (str "Hello")
                                               [7%N] "job" emptyWorld).2
    = encoderCalls emptyWorld
      ++ scrollCall (happy (Fin 5)) (str "Hello") "job"
                    (or_zero (Some (Fin 5))) :: rest.
Proof.
  split; [reflexivity|]. split; [reflexivity|]. split; [reflexivity|].
  split; [vm_compute; discriminate|].
  apply (short_audio_reaches_encoder (happy (Fin 5)) (str "Hello") [7%N]
                                     "job" emptyWorld [1%N] tt 5).
  - reflexivity.
  - reflexivity.
  - reflexivity.
  - vm_compute; discriminate.
Defined.

(** C6, as stated, fails: for the empty script the layout has a section,
    and the invocation is not rejected and calls the encoder. *)
Lemma empty_script_not_rejected :
  sections (layout tenPx []) <> [] /\
  ~ fails_fast (happy (Fin 10)) [] [7%N] "job" emptyWorld.
Proof.
  split; [discriminate|].
  unfold fails_fast. intros [H _]. vm_compute in H. exact H.
Qed.

(** C6, amended: for the empty script the layout returns one empty
    wrapped line and one section (lines 0 to 0, complexity 0); the invocation
    does not fail on that account: provided rendering, saving the image and
    probing succeeded, the encoder is invoked with the scroll expression. *)
Theorem empty_script_runs c audio jobId w png u md :
  let st := layout (measureText c) [] in
  renderPng c (wrappedLines st) (totalHeight st) = Resolved png ->
  saveScrollImage c jobId png = Resolved u ->
  ffprobe c audio = Resolved md ->
  st = mkLayout [[]] 1 [mkSection 0 0 (of_Z 0)] /\
  exists rest,
    encoderCalls (generateScrollingScriptVideo c [] audio jobId w).2
    = encoderCalls w ++ scrollCall c [] jobId (or_zero md) :: rest.
Proof.
  intros st Hpng Hsave Hprobe. split; [reflexivity|].
  exact (reaches_encoder c [] audio jobId w png u md Hpng Hsave Hprobe).
Qed.

Lemma empty_script_runs_witness :
  renderPng (happy (Fin 10))
            (wrappedLines (layout (measureText (happy (Fin 10))) []))
            (totalHeight (layout (measureText (happy (Fin 10))) []))
  = Resolved [1%N] /\
  saveScrollImage (happy (Fin 10)) "job" [1%N] = Resolved tt /\
  ffprobe (happy (Fin 10)) [7%N] = Resolved (Some (Fin 10)) /\
  layout (measureText (happy (Fin 10))) []
  = mkLayout [[]] 1 [mkSection 0 0 (of_Z 0)] /\
  exists rest,
    encoderCalls (generateScrollingScriptVideo (happy (Fin 10)) [] [7%N]
                                               "job" emptyWorld).2
    = encoderCalls emptyWorld
      ++ scrollCall (happy (Fin 10)) [] "job" (or_zero (Some (Fin 10))) :: rest.
Proof.
  split; [reflexivity|]. split; [reflexivity|]. split; [reflexivity|].
  apply (empty_script_runs (happy (Fin 10)) [7%N] "job" emptyWorld [1%N] tt
                           (Some (Fin 10))); reflexivity.
Defined.

(** C8, at a failing encoder run: the invocation is rejected with the
    encoder's error and temp files it created are still there afterwards: the
    image and the audio when the crop-filter run fails, those and the
    intermediate video when the mux run fails. *)
Theorem encoder_failure_leaves_temp_files :
  let r2 := generateScrollingScriptVideo (encoderDown (Fin 10)) (str "Hello")
                                         [7%N] "job" emptyWorld in
  let r3 := generateScrollingScriptVideo (muxDown (Fin 10)) (str "Hello")
                                         [7%N] "job" emptyWorld in
  (r2.1 = Rejected "ffmpeg exited with code 1" /\
   files r2.2 !! "/tmp/job-scroll.png" = Some [1%N] /\
   files r2.2 !! "/tmp/job-audio.wav" = Some [7%N]) /\
  (r3.1 = Rejected "ffmpeg exited with code 1" /\
   files r3.2 !! "/tmp/job-scroll.png" = Some [1%N] /\
   files r3.2 !! "/tmp/job-audio.wav" = Some [7%N] /\
   files r3.2 !! "/tmp/job-video.mp4" = Some [2%N]).
Proof.
  vm_compute. auto 10.
Qed.

(** * Further properties of the layout *)

Lemma layout_lines_score measureText lines : forall score st,
  (fold_left (layout_line measureText) lines (score, st)).1
  = fold_left score_line lines score.
Proof.
  induction lines as [|line lines IH]; intros score st; cbn [fold_left].
  - reflexivity.
  - destruct (layout_line measureText (score, st) line) as [score1 st1] eqn:E.
    rewrite IH. f_equal.
    unfold layout_line in E. unfold score_line.
    destruct (trim_is_empty line); inversion E; reflexivity.
Qed.

Lemma layout_paragraph_scores measureText n st paragraph i :
  map complexity (sections (layout_paragraph measureText n st paragraph i))
  = map complexity (sections st) ++ [paragraphComplexity paragraph].
Proof.
  unfold layout_paragraph.
  set (st1 := if (0 <? i)%nat then push_line [] st else st).
  assert (H1 : sections st1 = sections st)
    by (unfold st1; destruct (0 <? i)%nat; reflexivity).
  pose proof (layout_lines_score measureText (split_on LF paragraph)
                                 (of_Z 0) st1) as Hscore.
  destruct (layout_lines_grows measureText (fun _ => True) I (fun _ _ => I)
              (fun _ _ => I) (split_on LF paragraph) (of_Z 0) st1)
    as (new & (_ & _ & Hsec) & _).
  { exists (inject_Z 0). split; [reflexivity|apply Qle_refl]. }
  destruct (fold_left _ _ _) as [score st2]. simpl in Hscore, Hsec.
  assert (E : sections
                (push_section (mkSection (currentLine st) (currentLine st2 - 1)
                                         score) st2)
              = sections st ++ [mkSection (currentLine st)
                                          (currentLine st2 - 1) score])
    by (simpl; rewrite Hsec, H1; reflexivity).
  destruct (Z.of_nat i <? Z.of_nat n - 1)%Z; simpl sections; simpl in E;
    rewrite E, map_app; simpl; rewrite Hscore; reflexivity.
Qed.

Lemma layout_forEach_scores measureText n paragraphs : forall i st,
  map complexity
      (sections (forEach_from (layout_paragraph measureText n) i paragraphs st))
  = map complexity (sections st) ++ map paragraphComplexity paragraphs.
Proof.
  induction paragraphs as [|p ps IH]; intros i st; simpl.
  - rewrite app_nil_r. reflexivity.
  - rewrite IH, layout_paragraph_scores, <- app_assoc. reflexivity.
Qed.

(** The complexity of a section is the score of its paragraph. *)
Lemma complexity_by_paragraph measureText script :
  map complexity (sections (layout measureText script))
  = map paragraphComplexity (split_paragraphs script).
Proof.
  unfold layout. rewrite layout_forEach_scores. reflexivity.
Qed.

Lemma fold_left_map_add {A} (f : A -> number) l : forall a,
  fold_left (fun s x => add s (f x)) l a = fold_left add (map f l) a.
Proof.
  induction l as [|x l IH]; intros a; simpl; [reflexivity|apply IH].
Qed.

Lemma secDur_by_complexity st Dn :
  map (secDur st Dn) (sections st)
  = map (fun c => mul (div c (fold_left add (map complexity (sections st))
                                        (of_Z 0)))
                      (availableDuration Dn))
        (map complexity (sections st)).
Proof.
  rewrite map_map. apply map_ext. intros s. unfold secDur, totalComplexity.
  rewrite fold_left_map_add. reflexivity.
Qed.

(** X4: the complexity scores, and with them the duration allocated to
    each section, do not depend on the glyph metrics (on how the lines
    wrap). *)
Theorem shares_independent_of_metrics (m1 m2 : jsstring -> Q)
        (script : jsstring) (duration : number) :
  map complexity (sections (layout m1 script))
  = map complexity (sections (layout m2 script)) /\
  map (secDur (layout m1 script) duration) (sections (layout m1 script))
  = map (secDur (layout m2 script) duration) (sections (layout m2 script)).
Proof.
  assert (E : map complexity (sections (layout m1 script))
              = map complexity (sections (layout m2 script)))
    by (rewrite !complexity_by_paragraph; reflexivity).
  split; [exact E|].
  rewrite !secDur_by_complexity, E. reflexivity.
Qed.

(** ** Which scripts have a positive total complexity *)

(** A sum of finite non-negative numbers is finite, and it exceeds its
    start exactly when a summand is positive. *)
Lemma sum_positive (l : list number) :
  Forall nonneg l ->
  forall b : Q,
  exists t, fold_left add l (Fin b) = Fin t /\ (b <= t)%Q /\
            ((b < t)%Q <-> Exists positive l).
Proof.
  induction 1 as [|a l (x & -> & Hx) _ IH]; intros b; cbn [fold_left].
  - exists b. split_and!; [reflexivity|lra|].
    split; [lra|intros H; inversion H].
  - change (add (Fin b) (Fin x)) with (Fin (b + x)).
    destruct (IH (b + x)%Q) as (t & Ht & Hle & Hiff).
    exists t. split_and!; [exact Ht|lra|]. split.
    + intros Hlt. destruct (Qlt_le_dec 0 x) as [Hpos|Hzero].
      * apply Exists_cons_hd. exists x. split; [reflexivity|exact Hpos].
      * apply Exists_cons_tl, Hiff. lra.
    + intros Hex. inversion Hex as [? ? (q & Eq & Hq)|? ? Htl]; subst.
      * inversion Eq; subst. lra.
      * apply Hiff in Htl. lra.
Qed.

Lemma split_on_keeps sep s c :
  In c s -> c <> sep -> exists w, In w (split_on sep s) /\ In c w.
Proof.
  induction s as [|a s IH]; intros Hin Hne; [destruct Hin|].
  simpl. destruct (N.eqb_spec a sep) as [->|Ha].
  - destruct Hin as [->|Hin]; [congruence|].
    destruct (IH Hin Hne) as (w & Hw & Hc). exists w. split; [right|]; auto.
  - pose proof (split_on_nonempty sep s) as Hlen.
    destruct (split_on sep s) as [|w ws]; [simpl in Hlen; lia|].
    destruct Hin as [->|Hin].
    + exists (c :: w). split; left; reflexivity.
    + destruct (IH Hin Hne) as (w' & [<-|Hw'] & Hc).
      * exists (a :: w). split; [left; reflexivity|right; exact Hc].
      * exists w'. split; [right; exact Hw'|exact Hc].
Qed.

Lemma split_on_sub sep s w c :
  In w (split_on sep s) -> In c w -> In c s.
Proof.
  revert w. induction s as [|a s IH]; intros w Hw Hc; simpl in Hw.
  - destruct Hw as [<-|[]]. destruct Hc.
  - destruct (a =? sep)%N.
    + destruct Hw as [<-|Hw]; [destruct Hc|]. right. eapply IH; eassumption.
    + destruct (split_on sep s) as [|w0 ws].
      * destruct Hw as [<-|[]]. destruct Hc as [->|[]]. left; reflexivity.
      * destruct Hw as [<-|Hw].
        -- destruct Hc as [->|Hc]; [left; reflexivity|].
           right. apply (IH w0); [left; reflexivity|exact Hc].
        -- right. apply (IH w); [right; exact Hw|exact Hc].
Qed.

Lemma not_blank_visible line : trim_is_empty line = false <-> visible line.
Proof.
  unfold trim_is_empty, visible. split.
  - intros H. induction line as [|c line IH]; [discriminate|].
    simpl in H. destruct (is_space c) eqn:E.
    + destruct (IH H) as (c' & Hin & Hc'). exists c'. split; [right|]; auto.
    + exists c. split; [left; reflexivity|exact E].
  - intros (c & Hin & Hc).
    destruct (forallb is_space line) eqn:E; [|reflexivity].
    rewrite forallb_forall in E. rewrite (E c Hin) in Hc. discriminate.
Qed.

Lemma sum_lengths_map (ws : list jsstring) a :
  fold_left (fun sum w => add sum (of_Z (Z.of_nat (length w)))) ws a
  = fold_left add (map (fun w => of_Z (Z.of_nat (length w))) ws) a.
Proof. apply (fold_left_map_add (fun w => of_Z (Z.of_nat (length w)))). Qed.

(** A line with a visible character has a positive complexity. *)
Lemma lineComplexity_positive line :
  visible line -> positive (lineComplexity line).
Proof.
  intros (c & Hin & Hc).
  assert (Hsp : c <> SP) by (intros ->; discriminate).
  destruct (split_on_keeps SP line c Hin Hsp) as (w & Hw & Hcw).
  unfold lineComplexity, avgWordLength.
  set (ws := split_on SP line) in *.
  rewrite sum_lengths_map.
  destruct (sum_positive (map (fun w => of_Z (Z.of_nat (length w))) ws))
    with (b := inject_Z 0) as (b & Hb & Hb0 & Hiff).
  { apply Forall_forall. intros a Ha. apply list_elem_of_In, in_map_iff in Ha.
    destruct Ha as (w' & <- & _). eexists. split; [reflexivity|].
    change 0%Q with (inject_Z 0). rewrite <- Zle_Qle. lia. }
  change (of_Z 0) with (Fin (inject_Z 0)). rewrite Hb.
  assert (Hpos : (inject_Z 0 < b)%Q).
  { apply Hiff. apply Exists_exists.
    exists (of_Z (Z.of_nat (length w))). split.
    - apply list_elem_of_In, in_map_iff. exists w. auto.
    - eexists. split; [reflexivity|].
      change 0%Q with (inject_Z 0). rewrite <- Zlt_Qlt.
      destruct w; [destruct Hcw|simpl; lia]. }
  change (inject_Z 0) with 0%Q in Hpos.
  assert (Hn : (0 < inject_Z (Z.of_nat (length ws)))%Q).
  { change 0%Q with (inject_Z 0). rewrite <- Zlt_Qlt.
    pose proof (split_on_nonempty SP line). fold ws in H. lia. }
  unfold of_Z. rewrite div_fin by exact Hn.
  assert (Havg : (0 < b / inject_Z (Z.of_nat (length ws)))%Q)
    by (apply Qlt_shift_div_l; lra).
  set (avg := (b / inject_Z (Z.of_nat (length ws)))%Q) in *.
  destruct (hasCode line), (hasTech line); simpl;
    (eexists; split; [reflexivity|]); nra.
Qed.

Lemma score_lines_filter lines : forall a,
  fold_left score_line lines a
  = fold_left add
      (map lineComplexity (filter (fun l => trim_is_empty l = false) lines)) a.
Proof.
  induction lines as [|l lines IH]; intros a; [reflexivity|].
  cbn [fold_left]. rewrite IH, filter_cons.
  unfold score_line. destruct (decide (trim_is_empty l = false)) as [E|E].
  - rewrite E. reflexivity.
  - destruct (trim_is_empty l); [reflexivity|congruence].
Qed.

Lemma visible_lines paragraph :
  visible paragraph <->
  exists line, In line (split_on LF paragraph) /\ visible line.
Proof.
  split.
  - intros (c & Hin & Hc).
    assert (Hlf : c <> LF) by (intros ->; discriminate).
    destruct (split_on_keeps LF paragraph c Hin Hlf) as (line & Hl & Hcl).
    exists line. split; [exact Hl|]. exists c. auto.
  - intros (line & Hl & c & Hcl & Hc). exists c. split; [|exact Hc].
    eapply split_on_sub; eassumption.
Qed.

(** The score of a paragraph is finite and non-negative, and positive
    exactly when the paragraph has a visible character. *)
Lemma paragraph_positive paragraph :
  nonneg (paragraphComplexity paragraph) /\
  (positive (paragraphComplexity paragraph) <-> visible paragraph).
Proof.
  unfold paragraphComplexity. rewrite score_lines_filter.
  set (lines := filter (fun l => trim_is_empty l = false)
                       (split_on LF paragraph)).
  destruct (sum_positive (map lineComplexity lines)) with (b := inject_Z 0)
    as (t & Ht & Ht0 & Hiff).
  { apply Forall_forall. intros a Ha. apply list_elem_of_In, in_map_iff in Ha.
    destruct Ha as (l & <- & _). apply lineComplexity_nonneg. }
  change (of_Z 0) with (Fin (inject_Z 0)). rewrite Ht.
  change (inject_Z 0) with 0%Q in *.
  split; [exists t; split; [reflexivity|exact Ht0]|].
  rewrite visible_lines. split.
  - intros (q & Eq & Hq). inversion Eq; subst q.
    apply Hiff, Exists_exists in Hq as (a & Ha & _).
    apply list_elem_of_In, in_map_iff in Ha as (l & _ & Hl).
    apply list_elem_of_In, list_elem_of_filter in Hl as (Hnb & Hl).
    exists l. split; [apply list_elem_of_In, Hl|apply not_blank_visible, Hnb].
  - intros (l & Hl & Hv). exists t. split; [reflexivity|].
    apply Hiff, Exists_exists. exists (lineComplexity l). split.
    + apply list_elem_of_In, in_map_iff. exists l. split; [reflexivity|].
      apply list_elem_of_In, list_elem_of_filter. split.
      * apply not_blank_visible, Hv.
      * apply list_elem_of_In, Hl.
    + apply lineComplexity_positive, Hv.
Qed.

Lemma match_ws_nl_spaces s : forall k,
  match_ws_nl s = Some k ->
  Forall (fun c => is_space c = true) (firstn k s).
Proof.
  induction s as [|c s IH]; intros k H; simpl in H; [discriminate|].
  destruct (is_space c) eqn:Ec; [|discriminate].
  destruct (match_ws_nl s) as [k'|].
  - inversion H; subst. simpl. constructor; [exact Ec|]. apply IH. reflexivity.
  - destruct (c =? LF)%N; inversion H; subst. simpl.
    constructor; [exact Ec|]. rewrite firstn_O. constructor.
Qed.

(** The pieces of the split hold characters of the text only. *)
Lemma split_go_sub s : forall k cur p c,
  In p (split_go k cur s) -> In c p -> In c cur \/ In c s.
Proof.
  induction s as [|a s IH]; intros k cur p c Hp Hc; simpl in Hp.
  - destruct Hp as [<-|[]]. left. apply in_rev. exact Hc.
  - destruct k as [|k].
    + destruct (if (a =? LF)%N then match_ws_nl s else None) as [k2|].
      * destruct Hp as [<-|Hp]; [left; apply in_rev; exact Hc|].
        destruct (IH _ _ _ _ Hp Hc) as [[]|H]. right; right; exact H.
      * destruct (IH _ _ _ _ Hp Hc) as [[->|H]|H]; auto.
        -- right; left; reflexivity.
        -- right; right; exact H.
    + destruct (IH _ _ _ _ Hp Hc) as [H|H]; auto. right; right; exact H.
Qed.

(** Only white space is dropped by the split: a visible character of
    the text is in one of the pieces. *)
Lemma split_go_keeps s : forall k cur c,
  is_space c = false ->
  Forall (fun c => is_space c = true) (firstn k s) ->
  In c cur \/ In c s ->
  exists p, In p (split_go k cur s) /\ In c p.
Proof.
  induction s as [|a s IH]; intros k cur c Hc Hskip Hin; simpl.
  - destruct Hin as [Hin|[]]. exists (rev cur). split; [left; reflexivity|].
    rewrite <- in_rev. exact Hin.
  - destruct k as [|k].
    + assert (Hnone : exists p, In p (split_go 0 (a :: cur) s) /\ In c p).
      { apply (IH 0%nat (a :: cur) c Hc); [rewrite firstn_O; constructor|].
        destruct Hin as [Hin|[->|Hin]]; [left; right|left; left|right]; auto. }
      destruct (N.eqb_spec a LF) as [Ea|Ea]; [|exact Hnone].
      destruct (match_ws_nl s) as [k2|] eqn:E; [|exact Hnone].
      destruct Hin as [Hin|[Hin|Hin]].
      * exists (rev cur). split; [left; reflexivity|].
        rewrite <- in_rev. exact Hin.
      * rewrite <- Hin, Ea in Hc. discriminate.
      * destruct (IH k2 [] c Hc (match_ws_nl_spaces _ _ E) (or_intror Hin))
          as (p & Hp & Hcp).
        exists p. split; [right; exact Hp|exact Hcp].
    + simpl in Hskip. inversion Hskip as [|? ? Ha Hrest]; subst.
      apply (IH k cur c Hc Hrest).
      destruct Hin as [Hin|[->|Hin]]; [left| |right]; auto.
      rewrite Ha in Hc. discriminate.
Qed.

Lemma visible_paragraphs script :
  visible script <->
  exists p, In p (split_paragraphs script) /\ visible p.
Proof.
  unfold split_paragraphs. split.
  - intros (c & Hin & Hc).
    destruct (split_go_keeps script 0 [] c Hc) as (p & Hp & Hcp).
    + rewrite firstn_O. constructor.
    + right. exact Hin.
    + exists p. split; [exact Hp|]. exists c. auto.
  - intros (p & Hp & c & Hcp & Hc). exists c. split; [|exact Hc].
    destruct (split_go_sub _ _ _ _ _ Hp Hcp) as [[]|H]. exact H.
Qed.

(** X5: the total complexity is finite, and it is positive exactly when
    the script has a character that is not white space; only all-blank
    scripts make the durations NaN. *)
Theorem total_positive_iff_visible (measureText : jsstring -> Q)
        (script : jsstring) :
  exists T, totalComplexity (sections (layout measureText script)) = Fin T /\
            (0 <= T)%Q /\ ((0 < T)%Q <-> visible script).
Proof.
  unfold totalComplexity. rewrite fold_left_map_add, complexity_by_paragraph.
  destruct (sum_positive (map paragraphComplexity (split_paragraphs script)))
    with (b := inject_Z 0) as (T & HT & HT0 & Hiff).
  { apply Forall_forall. intros a Ha. apply list_elem_of_In, in_map_iff in Ha.
    destruct Ha as (p & <- & _). apply paragraph_positive. }
  change (of_Z 0) with (Fin (inject_Z 0)).
  exists T. split_and!; [exact HT|exact HT0|].
  change (inject_Z 0) with 0%Q in Hiff.
  rewrite Hiff, visible_paragraphs, Exists_exists. split.
  - intros (a & Ha & Hpos).
    apply list_elem_of_In, in_map_iff in Ha as (p & <- & Hp).
    exists p. split; [exact Hp|apply paragraph_positive, Hpos].
  - intros (p & Hp & Hv). exists (paragraphComplexity p). split.
    + apply list_elem_of_In, in_map_iff. exists p. auto.
    + apply paragraph_positive, Hv.
Qed.

(** ** No word is lost by the wrapping *)

Lemma words_of_app l1 l2 : words_of (l1 ++ l2) = words_of l1 ++ words_of l2.
Proof. unfold words_of. rewrite flat_map_app, filter_app. reflexivity. Qed.

Lemma split_on_single sep w : ~ In sep w -> split_on sep w = [w].
Proof.
  induction w as [|c w IH]; intros H; simpl; [reflexivity|].
  destruct (N.eqb_spec c sep) as [->|Hne]; [exfalso; apply H; left; reflexivity|].
  rewrite IH; [reflexivity|]. intros Hin. apply H. right. exact Hin.
Qed.

Lemma split_on_app sep a b :
  split_on sep (a ++ sep :: b) = split_on sep a ++ split_on sep b.
Proof.
  induction a as [|c a IH]; simpl.
  - rewrite N.eqb_refl. reflexivity.
  - destruct (c =? sep)%N; rewrite IH; [reflexivity|].
    pose proof (split_on_nonempty sep a) as Hlen.
    destruct (split_on sep a); [simpl in Hlen; lia|reflexivity].
Qed.

Lemma words_of_word (w : list N) :
  ~ In SP w -> words_of [w] = filter (fun w => truthy w = true) [w].
Proof.
  intros H. unfold words_of. simpl. rewrite app_nil_r, split_on_single by exact H.
  reflexivity.
Qed.

Lemma words_of_push_blank st :
  words_of (wrappedLines (push_line [] st)) = words_of (wrappedLines st).
Proof.
  cbn [push_line wrappedLines]. rewrite words_of_app.
  apply app_nil_r.
Qed.

(** Joining a word to the line buffer adds that word to its words. *)
Lemma words_of_test (buf w : list N) :
  ~ In SP w ->
  words_of [if truthy buf then buf ++ SP :: w else w]
  = words_of [buf] ++ words_of [w].
Proof.
  intros Hw. destruct buf as [|c buf]; [reflexivity|].
  cbn [truthy]. unfold words_of. cbn [flat_map]. rewrite !app_nil_r.
  pose proof (split_on_app SP (c :: buf) w) as E.
  unfold jsstring, char in *. rewrite E, filter_app. reflexivity.
Qed.

Section KeepsWords.

Variable measureText : jsstring -> Q.

Lemma pack_words_keep ws :
  Forall (fun w => ~ In SP w) ws ->
  forall buf st,
  exists new,
    grows st (fold_left (pack_word measureText) ws (buf, st)).2 new /\
    words_of (new ++ [(fold_left (pack_word measureText) ws (buf, st)).1])
    = words_of [buf] ++ filter (fun w => truthy w = true) ws.
Proof.
  induction 1 as [|w ws Hw Hws IH]; intros buf st; cbn [fold_left].
  - exists []. split; [apply grows_refl|]. simpl. rewrite app_nil_r. reflexivity.
  - change (pack_word measureText (buf, st) w)
      with (if Qle_bool (measureText
                           (if truthy buf then buf ++ SP :: w else w))
                        drawableWidth
            then (if truthy buf then buf ++ SP :: w else w, st)
            else (w, push_line buf st)).
    destruct (Qle_bool _ drawableWidth).
    + destruct (IH (if truthy buf then buf ++ SP :: w else w) st)
        as (new & Hg & Hwords).
      exists new. split; [exact Hg|].
      etransitivity; [exact Hwords|].
      pose proof (words_of_test buf w Hw) as E1.
      pose proof (words_of_word w Hw) as E2.
      unfold jsstring, char in *.
      rewrite E1, E2, <- app_assoc, <- filter_app. reflexivity.
    + destruct (IH w (push_line buf st)) as (new & Hg & Hwords).
      exists ([buf] ++ new). split.
      * eapply grows_trans; [apply grows_push|exact Hg].
      * rewrite <- app_assoc, words_of_app.
        etransitivity; [apply f_equal, Hwords|].
        pose proof (words_of_word w Hw) as E2.
        unfold jsstring, char in *.
        rewrite E2, <- filter_app. reflexivity.
Qed.

Lemma layout_line_keeps score st line :
  exists new,
    grows st (layout_line measureText (score, st) line).2 new /\
    words_of new
    = words_of (filter (fun l => trim_is_empty l = false) [line]).
Proof.
  unfold layout_line, pack_line. rewrite filter_cons, filter_nil.
  destruct (trim_is_empty line) eqn:E.
  - exists [[]]. split; [apply grows_push|].
    rewrite decide_False by congruence. reflexivity.
  - rewrite decide_True by reflexivity.
    destruct (pack_words_keep (split_on SP line) (split_on_no_sep SP line) [] st)
      as (new & Hg & Hwords).
    destruct (fold_left _ _ _) as [buf st']. cbn [fst snd] in *.
    exists (new ++ [buf]). split.
    + eapply grows_trans; [exact Hg|apply grows_push].
    + rewrite Hwords. unfold words_of. cbn [flat_map].
      rewrite !app_nil_r. reflexivity.
Qed.

Lemma layout_lines_keep lines : forall score st,
  exists new,
    grows st (fold_left (layout_line measureText) lines (score, st)).2 new /\
    words_of new
    = words_of (filter (fun l => trim_is_empty l = false) lines).
Proof.
  induction lines as [|line lines IH]; intros score st; cbn [fold_left].
  - exists []. split; [apply grows_refl|reflexivity].
  - destruct (layout_line_keeps score st line) as (n1 & Hg1 & Hw1).
    destruct (layout_line measureText (score, st) line) as [score1 st1].
    simpl in Hg1.
    destruct (IH score1 st1) as (n2 & Hg2 & Hw2).
    exists (n1 ++ n2). split; [eapply grows_trans; eassumption|].
    rewrite words_of_app, Hw1, Hw2, <- words_of_app, <- filter_app.
    reflexivity.
Qed.

Lemma layout_paragraph_keeps n st paragraph i :
  words_of (wrappedLines (layout_paragraph measureText n st paragraph i))
  = words_of (wrappedLines st)
    ++ words_of (filter (fun l => trim_is_empty l = false)
                        (split_on LF paragraph)).
Proof.
  unfold layout_paragraph.
  set (st1 := if (0 <? i)%nat then push_line [] st else st).
  assert (H1 : words_of (wrappedLines st1) = words_of (wrappedLines st)).
  { unfold st1. destruct (0 <? i)%nat; [|reflexivity].
    apply words_of_push_blank. }
  destruct (layout_lines_keep (split_on LF paragraph) (of_Z 0) st1)
    as (new & (Hw & _ & _) & Hwords).
  destruct (fold_left _ _ _) as [score st2]. simpl in Hw.
  assert (H2 : words_of (wrappedLines st2)
               = words_of (wrappedLines st)
                 ++ words_of (filter (fun l => trim_is_empty l = false)
                                     (split_on LF paragraph)))
    by (rewrite Hw, words_of_app, H1, Hwords; reflexivity).
  destruct (Z.of_nat i <? Z.of_nat n - 1)%Z.
  - rewrite words_of_push_blank. exact H2.
  - exact H2.
Qed.

Lemma layout_forEach_keeps n paragraphs : forall i st,
  words_of (wrappedLines
              (forEach_from (layout_paragraph measureText n) i paragraphs st))
  = words_of (wrappedLines st)
    ++ words_of (filter (fun l => trim_is_empty l = false)
                        (flat_map (split_on LF) paragraphs)).
Proof.
  induction paragraphs as [|p ps IH]; intros i st; simpl.
  - rewrite filter_nil. unfold words_of at 3. simpl. rewrite app_nil_r.
    reflexivity.
  - rewrite IH, layout_paragraph_keeps, filter_app, words_of_app, app_assoc.
    reflexivity.
Qed.

End KeepsWords.

(** X6: the wrapping loses no word, adds none and keeps their order: the
    non-empty words of the wrapped lines are the non-empty words of the
    non-blank source lines, whatever the glyph metrics. *)
Theorem layout_keeps_words (measureText : jsstring -> Q) (script : jsstring) :
  words_of (wrappedLines (layout measureText script))
  = words_of (text_lines script).
Proof.
  unfold layout, text_lines. rewrite layout_forEach_keeps. reflexivity.
Qed.

(** ** Oversized words *)

Lemma split_on_head sep (s : list N) :
  exists w ws b, split_on sep s = w :: ws /\ s = w ++ b.
Proof.
  induction s as [|c s (w & ws & b & E & Es)]; simpl.
  - exists [], [], []. split; reflexivity.
  - destruct (c =? sep)%N.
    + exists [], (split_on sep s), (c :: s). split; reflexivity.
    + rewrite E. exists (c :: w), ws, b. split; [reflexivity|].
      simpl. f_equal. exact Es.
Qed.

(** A piece of a split is a stretch of the text. *)
Lemma split_on_piece sep (s : list N) : forall w : list N,
  In w (split_on sep s) -> exists a b, s = a ++ w ++ b.
Proof.
  induction s as [|c s IH]; intros w Hw; simpl in Hw.
  - destruct Hw as [<-|[]]. exists [], []. reflexivity.
  - destruct (c =? sep)%N.
    + destruct Hw as [<-|Hw].
      * exists [], (c :: s). reflexivity.
      * destruct (IH w Hw) as (a & b & ->). exists (c :: a), b. reflexivity.
    + destruct (split_on_head sep s) as (w0 & ws & b0 & E & Es).
      rewrite E in Hw, IH. destruct Hw as [<-|Hw].
      * exists [], b0. simpl. f_equal. exact Es.
      * destruct (IH w (or_intror Hw)) as (a & b & ->).
        exists (c :: a), b. reflexivity.
Qed.

(** C7: every wrapped line fits the drawable width ([width - 2 *
    paddingX]), except a single word wider than the drawable width, which is
    kept whole on a line of its own: every line is within the width or is
    one word wider than it, and every word of the script wider than the
    drawable width is one of the wrapped lines.  The empty text is taken to
    fit; for the second part a text is taken to be no narrower than a
    stretch of it, as is the case for glyph metrics. *)
Theorem wrapped_lines_fit (measureText : jsstring -> Q)
        (Hblank : (measureText [] <= drawableWidth)%Q)
        (script : jsstring) :
  let st := layout measureText script in
  (forall l, In l (wrappedLines st) -> fits_or_lone_word measureText l) /\
  ((forall a w b, (measureText w <= measureText (a ++ w ++ b))%Q) ->
   forall w, In w (words_of (text_lines script)) ->
             (drawableWidth < measureText w)%Q ->
             In w (wrappedLines st)).
Proof.
  intros st.
  assert (Hfit : forall l, In l (wrappedLines st) ->
                           fits_or_lone_word measureText l).
  { intros l Hin.
    assert (Hinv : layout_inv (fits_or_lone_word measureText)
                     (length (split_paragraphs script))
                     (length (split_paragraphs script))
                     (layout measureText script)).
    { apply layout_inv_layout.
      - left. exact Hblank.
      - intros l0 Hl0. left. apply Qle_bool_iff. exact Hl0.
      - intros w Hw. destruct (Qlt_le_dec drawableWidth (measureText w)).
        + right. split; assumption.
        + left. assumption. }
    pose proof (inv_lines _ _ _ _ Hinv) as Hall.
    rewrite Forall_forall in Hall. apply Hall, list_elem_of_In. exact Hin. }
  split; [exact Hfit|].
  intros Hmono w Hw Hwide.
  assert (Hkeep : words_of (wrappedLines st) = words_of (text_lines script)).
  { unfold st, layout, text_lines. rewrite layout_forEach_keeps.
    reflexivity. }
  rewrite <- Hkeep in Hw. unfold words_of in Hw.
  apply list_elem_of_In, list_elem_of_filter in Hw as [_ Hw].
  apply list_elem_of_In, in_flat_map in Hw as (l & Hl & Hwl).
  destruct (Hfit l Hl) as [Hle|[Hsp _]].
  - exfalso. destruct (split_on_piece SP l w Hwl) as (a & b & ->).
    apply (Qlt_irrefl (measureText w)).
    eapply Qle_lt_trans; [exact (Hmono a w b)|].
    eapply Qle_lt_trans; [exact Hle|exact Hwide].
  - rewrite (split_on_single SP l Hsp) in Hwl.
    destruct Hwl as [<-|[]]. exact Hl.
Qed.

Lemma tenPx_stretch a w b : (tenPx w <= tenPx (a ++ w ++ b))%Q.
Proof.
  unfold tenPx. rewrite <- Zle_Qle, !length_app. lia.
Qed.

Lemma wrapped_lines_fit_witness :
  (tenPx [] <= drawableWidth)%Q /\
  (drawableWidth < tenPx longWord)%Q /\
  In longWord
     (words_of (text_lines (str "see " ++ longWord ++ str " end"))) /\
  In longWord
     (wrappedLines (layout tenPx (str "see " ++ longWord ++ str " end"))) /\
  fits_or_lone_word tenPx longWord.
Proof.
  assert (Hblank : (tenPx [] <= drawableWidth)%Q) by (vm_compute; discriminate).
  assert (Hwide : (drawableWidth < tenPx longWord)%Q)
    by (vm_compute; reflexivity).
  assert (Hword : In longWord
                     (words_of (text_lines
                                  (str "see " ++ longWord ++ str " end"))))
    by (vm_compute; auto).
  destruct (wrapped_lines_fit tenPx Hblank
              (str "see " ++ longWord ++ str " end")) as [Hfit Hlone].
  pose proof (Hlone tenPx_stretch longWord Hword Hwide) as Hin.
  split; [exact Hblank|]. split; [exact Hwide|]. split; [exact Hword|].
  split; [exact Hin|]. exact (Hfit longWord Hin).
Defined.

(** * Further properties of the invocation *)

(** Open the body of an invocation: name the four temp paths, which are
    pairwise distinct, and unfold the monad. *)
Ltac run_open jobId :=
  unfold generateScrollingScriptVideo;
  pose proof (tmp_path_ne jobId "-scroll.png" "-audio.wav" ltac:(discriminate));
  pose proof (tmp_path_ne jobId "-scroll.png" "-video.mp4" ltac:(discriminate));
  pose proof (tmp_path_ne jobId "-scroll.png" "-final.mp4" ltac:(discriminate));
  pose proof (tmp_path_ne jobId "-audio.wav" "-video.mp4" ltac:(discriminate));
  pose proof (tmp_path_ne jobId "-audio.wav" "-final.mp4" ltac:(discriminate));
  pose proof (tmp_path_ne jobId "-video.mp4" "-final.mp4" ltac:(discriminate));
  set (tmpImage := ("/tmp/" ++ jobId ++ "-scroll.png")%string) in *;
  set (tmpAudio := ("/tmp/" ++ jobId ++ "-audio.wav")%string) in *;
  set (tmpVideo := ("/tmp/" ++ jobId ++ "-video.mp4")%string) in *;
  set (tmpFinal := ("/tmp/" ++ jobId ++ "-final.mp4")%string) in *;
  unfold mbind, M_bind, bind, lift, getAudioDuration, createScrollVideo,
    mergeAudio, mbind, M_bind, bind, lift, readFileSync, writeFileSync,
    record, rmSync, mret, M_ret, ret.

(** Follow a run through the outcomes of its collaborators. *)
Ltac run_cases :=
  repeat (run_fs;
          match goal with
          | |- context [match ?o with Resolved _ => _ | Rejected _ => _ end] =>
            destruct o eqn:?
          end);
  run_fs.

(** X7: when drawing the image or saving it fails, the invocation is
    rejected with that error before anything is written under [/tmp] and
    before any encoder run: files and encoder calls are as they were. *)
Theorem early_failure_changes_nothing c script audio jobId w e :
  let st := layout (measureText c) script in
  renderPng c (wrappedLines st) (totalHeight st) = Rejected e \/
  (exists png, renderPng c (wrappedLines st) (totalHeight st) = Resolved png /\
               saveScrollImage c jobId png = Rejected e) ->
  generateScrollingScriptVideo c script audio jobId w = (Rejected e, w).
Proof.
  intros st [Hpng|(png & Hpng & Hsave)]; unfold generateScrollingScriptVideo;
    fold st; unfold mbind, M_bind, bind, lift; rewrite Hpng.
  - reflexivity.
  - rewrite Hsave. reflexivity.
Qed.

Lemma early_failure_changes_nothing_witness :
  generateScrollingScriptVideo
    (mkCollaborators tenPx (fun _ _ => Rejected "canvas"%string)
       (fun _ _ => Resolved tt) (fun _ => Resolved None)
       (fun _ _ _ => Resolved []) (fun _ _ => Resolved [])
       (fun _ _ => Resolved tt))
    (str "Hello") [7%N] "job" emptyWorld
  = (Rejected "canvas"%string, emptyWorld).
Proof.
  apply early_failure_changes_nothing. left. reflexivity.
Defined.

(** X8: whatever the collaborators do, an invocation reads, writes and
    deletes no file other than its four temp files. *)
Theorem only_temp_files_touched c script audio jobId w (path : string) :
  ~ In path (tmpFiles jobId) ->
  files (generateScrollingScriptVideo c script audio jobId w).2 !! path
  = files w !! path.
Proof.
  intros Hpath. unfold tmpFiles in Hpath. cbn [map In] in Hpath.
  run_open jobId. run_cases;
    repeat ((rewrite lookup_delete_ne by tauto)
            || (rewrite lookup_insert_ne by tauto));
    reflexivity.
Qed.

Lemma only_temp_files_touched_witness :
  ~ In "/tmp/other.txt"%string (tmpFiles "job") /\
  files (generateScrollingScriptVideo (happy (Fin 10)) (str "Hello") [7%N]
           "job" (mkWorld {["/tmp/other.txt"%string := [9%N]]} [])).2
        !! "/tmp/other.txt"%string
  = files (mkWorld {["/tmp/other.txt"%string := [9%N]]} [])
          !! "/tmp/other.txt"%string.
Proof.
  assert (H : ~ In "/tmp/other.txt"%string (tmpFiles "job"))
    by (cbn; intros [H|[H|[H|[H|[]]]]]; discriminate).
  split; [exact H|].
  apply (only_temp_files_touched (happy (Fin 10)) (str "Hello") [7%N] "job"
           (mkWorld {["/tmp/other.txt"%string := [9%N]]} [])), H.
Defined.

(** X9: an invocation makes at most one crop-filter run and one mux run
    of the encoder, the mux run only after the crop-filter run, and an
    invocation that resolves has made both. *)
Theorem encoder_runs_in_order c script audio jobId w :
  exists l,
    encoderCalls (generateScrollingScriptVideo c script audio jobId w).2
    = encoderCalls w ++ l /\
    (l = [] \/
     (exists d, l = [scrollCall c script jobId d]) \/
     (exists d, l = [scrollCall c script jobId d;
                     MuxCall ("/tmp/" ++ jobId ++ "-video.mp4")%string
                             ("/tmp/" ++ jobId ++ "-audio.wav")%string
                             ("/tmp/" ++ jobId ++ "-final.mp4")%string])) /\
    (forall v,
        (generateScrollingScriptVideo c script audio jobId w).1 = Resolved v ->
        length l = 2%nat).
Proof.
  unfold scrollCall. run_open jobId. run_cases;
    first
      [ exists []; split_and!;
        [ symmetry; apply app_nil_r | left; reflexivity | discriminate ]
      | eexists; split_and!;
        [ rewrite <- ?app_assoc; reflexivity
        | first [ right; left; eexists; reflexivity
                | right; right; eexists; reflexivity ]
        | first [ discriminate | reflexivity ] ] ].
Qed.

(** X10: an invocation resolves only when every collaborator resolved,
    and then with the video of the mux run: the image drawn for the layout
    went through the crop-filter run with the scroll expression of the
    probed duration, and its video was muxed with the audio passed in. *)
Theorem resolves_with_muxed_video c script audio jobId w v :
  let st := layout (measureText c) script in
  (generateScrollingScriptVideo c script audio jobId w).1 = Resolved v ->
  exists png md video,
    renderPng c (wrappedLines st) (totalHeight st) = Resolved png /\
    saveScrollImage c jobId png = Resolved tt /\
    ffprobe c audio = Resolved md /\
    ffmpegScroll c png (generateScrollExpression st (or_zero md)) (or_zero md)
    = Resolved video /\
    ffmpegMux c video audio = Resolved v /\
    saveScrollVideo c jobId v = Resolved tt.
Proof.
  intros st. unfold st. run_open jobId. run_cases;
    intros Hr; try discriminate Hr; inversion Hr; subst;
    repeat match goal with u : unit |- _ => destruct u end;
    eauto 12.
Qed.

Lemma resolves_with_muxed_video_witness :
  (generateScrollingScriptVideo (happy (Fin 10)) (str "Hello") [7%N] "job"
                                emptyWorld).1 = Resolved [3%N] /\
  exists png md video,
    renderPng (happy (Fin 10))
              (wrappedLines (layout (measureText (happy (Fin 10)))
                                    (str "Hello")))
              (totalHeight (layout (measureText (happy (Fin 10)))
                                   (str "Hello")))
    = Resolved png /\
    saveScrollImage (happy (Fin 10)) "job" png = Resolved tt /\
    ffprobe (happy (Fin 10)) [7%N] = Resolved md /\
    ffmpegScroll (happy (Fin 10)) png
      (generateScrollExpression
         (layout (measureText (happy (Fin 10))) (str "Hello")) (or_zero md))
      (or_zero md)
    = Resolved video /\
    ffmpegMux (happy (Fin 10)) video [7%N] = Resolved [3%N] /\
    saveScrollVideo (happy (Fin 10)) "job" [3%N] = Resolved tt.
Proof.
  assert (H : (generateScrollingScriptVideo (happy (Fin 10)) (str "Hello")
                 [7%N] "job" emptyWorld).1 = Resolved [3%N])
    by (vm_compute; reflexivity).
  split; [exact H|].
  exact (resolves_with_muxed_video (happy (Fin 10)) (str "Hello") [7%N] "job"
                                   emptyWorld [3%N] H).
Defined.

(** ** Temp files of different jobs *)

Lemma string_app_list (a b : string) :
  list_ascii_of_string (a ++ b)
  = list_ascii_of_string a ++ list_ascii_of_string b.
Proof. induction a as [|c a IH]; simpl; [reflexivity|]. rewrite IH. reflexivity. Qed.

Lemma list_ascii_inj (a b : string) :
  list_ascii_of_string a = list_ascii_of_string b -> a = b.
Proof.
  intros H. rewrite <- (string_of_list_ascii_of_string a),
              <- (string_of_list_ascii_of_string b), H. reflexivity.
Qed.

(** Two temp paths are equal only for the same job and the same
    suffix. *)
Lemma tmp_path_inj (j1 j2 s1 s2 : string) :
  In s1 ["-scroll.png"; "-audio.wav"; "-video.mp4"; "-final.mp4"]%string ->
  In s2 ["-scroll.png"; "-audio.wav"; "-video.mp4"; "-final.mp4"]%string ->
  ("/tmp/" ++ j1 ++ s1 = "/tmp/" ++ j2 ++ s2)%string ->
  j1 = j2 /\ s1 = s2.
Proof.
  intros H1 H2 E. apply append_cancel in E.
  apply (f_equal list_ascii_of_string) in E.
  rewrite !string_app_list in E. apply (f_equal (@rev _)) in E.
  rewrite !rev_app_distr in E.
  simpl in H1, H2.
  destruct H1 as [<-|[<-|[<-|[<-|[]]]]];
    destruct H2 as [<-|[<-|[<-|[<-|[]]]]];
    simpl in E; try discriminate;
    (split; [|reflexivity]);
    assert (Er : rev (list_ascii_of_string j1) = rev (list_ascii_of_string j2))
      by congruence;
    apply (f_equal (@rev _)) in Er; rewrite !rev_involutive in Er;
    apply list_ascii_inj, Er.
Qed.

(** X11: jobs with different identifiers share no temp path, and the four
    temp paths of a job are distinct: invocations running side by side work
    on disjoint files. *)
Theorem temp_files_of_jobs_disjoint (j1 j2 : string) :
  j1 <> j2 ->
  NoDup (tmpFiles j1) /\
  forall path, In path (tmpFiles j1) -> ~ In path (tmpFiles j2).
Proof.
  intros Hne. split.
  - unfold tmpFiles. cbn [map].
    pose proof (tmp_path_ne j1 "-scroll.png" "-audio.wav" ltac:(discriminate)).
    pose proof (tmp_path_ne j1 "-scroll.png" "-video.mp4" ltac:(discriminate)).
    pose proof (tmp_path_ne j1 "-scroll.png" "-final.mp4" ltac:(discriminate)).
    pose proof (tmp_path_ne j1 "-audio.wav" "-video.mp4" ltac:(discriminate)).
    pose proof (tmp_path_ne j1 "-audio.wav" "-final.mp4" ltac:(discriminate)).
    pose proof (tmp_path_ne j1 "-video.mp4" "-final.mp4" ltac:(discriminate)).
    repeat constructor; rewrite ?list_elem_of_In; simpl; intuition congruence.
  - intros path Hin1 Hin2. unfold tmpFiles in Hin1, Hin2.
    apply in_map_iff in Hin1 as (s1 & <- & Hs1).
    apply in_map_iff in Hin2 as (s2 & E & Hs2).
    destruct (tmp_path_inj j2 j1 s2 s1 Hs2 Hs1 E) as [Ej _].
    apply Hne. symmetry. exact Ej.
Qed.

Lemma temp_files_of_jobs_disjoint_witness :
  "job-1"%string <> "job-2"%string /\
  NoDup (tmpFiles "job-1") /\
  forall path, In path (tmpFiles "job-1") -> ~ In path (tmpFiles "job-2").
Proof.
  split; [discriminate|].
  apply (temp_files_of_jobs_disjoint "job-1" "job-2"). discriminate.
Defined.

(** * Properties of the slide mode *)

(** ** [wrapText] *)

Section WrapText.

Variable measureText : jsstring -> Q.
Variable maxWidth : Q.

Let wrapped := wrapped_line measureText maxWidth.

Lemma wrap_fold_shape (ws : list jsstring) :
  Forall (fun w => ~ In SP w) ws ->
  forall lines line,
  Forall wrapped lines ->
  (line = [] \/ wrapped line) ->
  let r := fold_left (wrap_step measureText maxWidth) ws (lines, line) in
  Forall wrapped r.1 /\ (r.2 = [] \/ wrapped r.2).
Proof.
  induction 1 as [|w ws Hw _ IH]; intros lines line Hlines Hline;
    cbn [fold_left].
  - split; assumption.
  - change (wrap_step measureText maxWidth (lines, line) w)
      with (if negb (Qle_bool (measureText (join_word line w)) maxWidth)
               && truthy line
            then (lines ++ [line], w) else (lines, join_word line w)).
    assert (Hword : w = [] \/ wrapped w).
    { destruct w; [left; reflexivity|right]. split; [discriminate|right; exact Hw]. }
    destruct (Qle_bool _ maxWidth) eqn:Efit; cbn [negb andb].
    + apply IH; [exact Hlines|].
      destruct (join_word line w) eqn:Ej; [left; reflexivity|right].
      split; [discriminate|]. left. apply Qle_bool_iff, Efit.
    + destruct line as [|c line]; cbn [truthy].
      * apply IH; [exact Hlines|exact Hword].
      * apply IH; [|exact Hword].
        apply Forall_app. split; [exact Hlines|].
        destruct Hline as [?|Hl]; [discriminate|].
        constructor; [exact Hl|constructor].
Qed.

(** X12: every line returned by [wrapText] is non-empty, and it is within
    [maxWidth] or it is a single word; no empty line is ever returned. *)
Theorem wrapText_lines text l :
  In l (wrapText measureText text maxWidth) ->
  l <> [] /\ ((measureText l <= maxWidth)%Q \/ ~ In SP l).
Proof.
  unfold wrapText. intros Hin.
  destruct (wrap_fold_shape (split_on SP text) (split_on_no_sep SP text)
                            [] [] (List.Forall_nil _) (or_introl eq_refl))
    as (Hlines & Hline).
  destruct (fold_left _ _ _) as [lines line]. cbn [fst snd] in *.
  assert (Hall : Forall wrapped (if truthy line then lines ++ [line] else lines)).
  { destruct line as [|c line]; cbn [truthy]; [exact Hlines|].
    apply Forall_app. split; [exact Hlines|].
    destruct Hline as [?|Hl]; [discriminate|].
        constructor; [exact Hl|constructor]. }
  rewrite Forall_forall in Hall. apply Hall, list_elem_of_In, Hin.
Qed.

Lemma words_of_join (line w : list N) :
  ~ In SP w ->
  words_of [join_word line w] = words_of [line] ++ words_of [w].
Proof.
  intros Hw. pose proof (words_of_test line w Hw) as E.
  unfold join_word. destruct line as [|c line]; exact E.
Qed.

Lemma wrap_fold_words (ws : list jsstring) :
  Forall (fun w => ~ In SP w) ws ->
  forall lines line,
  let r := fold_left (wrap_step measureText maxWidth) ws (lines, line) in
  words_of (r.1 ++ [r.2])
  = words_of (lines ++ [line]) ++ filter (fun w => truthy w = true) ws.
Proof.
  induction 1 as [|w ws Hw _ IH]; intros lines line; cbn [fold_left].
  - cbn [fst snd]. rewrite filter_nil, app_nil_r. reflexivity.
  - change (wrap_step measureText maxWidth (lines, line) w)
      with (if negb (Qle_bool (measureText (join_word line w)) maxWidth)
               && truthy line
            then (lines ++ [line], w) else (lines, join_word line w)).
    pose proof (words_of_join line w Hw) as Ej.
    pose proof (words_of_word w Hw) as Ew.
    destruct (negb _ && truthy line).
    + etransitivity; [apply IH|].
      rewrite (words_of_app (lines ++ [line])).
      unfold jsstring, char in *. rewrite Ew, <- app_assoc, <- filter_app.
      reflexivity.
    + etransitivity; [apply IH|].
      rewrite !(words_of_app lines).
      unfold jsstring, char in *.
      rewrite Ej, Ew, <- !app_assoc, <- filter_app. reflexivity.
Qed.

(** X13: [wrapText] loses no word, adds none and keeps their order: the
    non-empty words of the returned lines are the non-empty words of the
    text. *)
Theorem wrapText_keeps_words text :
  words_of (wrapText measureText text maxWidth) = words_of [text].
Proof.
  unfold wrapText.
  pose proof (wrap_fold_words (split_on SP text) (split_on_no_sep SP text)
                              [] []) as H.
  destruct (fold_left _ _ _) as [lines line]. cbn [fst snd] in H.
  transitivity (words_of (lines ++ [line])).
  - destruct line as [|c line]; cbn [truthy]; [|reflexivity].
    rewrite words_of_app. symmetry. apply app_nil_r.
  - rewrite H. unfold words_of. cbn [flat_map app]. rewrite !app_nil_r.
    reflexivity.
Qed.

End WrapText.

Lemma wrapText_lines_witness :
  In (str "bb") (wrapText tenPx (str "aa bb") 20) /\
  str "bb" <> [] /\
  ((tenPx (str "bb") <= 20)%Q \/ ~ In SP (str "bb")).
Proof.
  split; [vm_compute; auto|].
  apply (wrapText_lines tenPx 20 (str "aa bb")). vm_compute. auto.
Defined.

(** ** [generateSlides] *)

Example slideFont_value : slideFont = (28, 28 * 1.3, 17%Z)%Q.
Proof. reflexivity. Qed.

Lemma slides_loop_total measureText fuel : forall words,
  (length words <= fuel)%nat ->
  exists slides,
    slides_loop measureText fuel words = Some slides /\
    (length slides <= length words)%nat /\
    (words <> [] -> (1 <= length slides)%nat).
Proof.
  induction fuel as [|fuel IH]; intros words Hlen.
  - destruct words; [|simpl in Hlen; lia].
    exists []. split_and!; [reflexivity|simpl; lia|congruence].
  - destruct words as [|w words].
    + exists []. split_and!; [reflexivity|simpl; lia|congruence].
    + cbn [slides_loop].
      set (lines := slide_lines measureText (w :: words)).
      pose proof (split_on_nonempty SP (join_lines lines)) as Hused.
      fold (usedWords lines) in Hused.
      set (k := Nat.min (usedWords lines) (length (w :: words))).
      assert (Hk : (1 <= k)%nat) by (unfold k; simpl length; lia).
      destruct (IH (drop k (w :: words))) as (slides & Hs & Hle & _).
      { rewrite length_drop. simpl length in *. lia. }
      rewrite Hs. exists (join_lines lines :: slides).
      split_and!; [reflexivity| |simpl; lia].
      rewrite length_drop in Hle. simpl length in *. lia.
Qed.

(** X14: [generateSlides] comes to an end on every script: each turn of
    its outer loop takes at least one word off, so it makes at least one
    slide and at most as many slides as the script has words. *)
Theorem generateSlides_terminates (measureText : jsstring -> Q)
        (script : jsstring) :
  exists slides,
    allSlides measureText script = Some slides /\
    (1 <= length slides <= length (split_on SP script))%nat.
Proof.
  unfold allSlides.
  destruct (slides_loop_total measureText (length (split_on SP script))
                              (split_on SP script) (le_n _))
    as (slides & Hs & Hle & Hge).
  exists slides. split; [exact Hs|]. split; [|exact Hle].
  apply Hge. pose proof (split_on_nonempty SP script) as H.
  destruct (split_on SP script); [simpl in H; lia|discriminate].
Qed.

(** ** Weights and durations of the slides *)

Lemma sum_finite l qs : finite_as l qs ->
  forall a, exists t, fold_left add l (Fin a) = Fin t /\ (t == a + Qsum qs)%Q.
Proof.
  induction 1 as [|x q l qs -> _ IH]; intros a; cbn [fold_left Qsum fold_right].
  - exists a. split; [reflexivity|ring].
  - change (add (Fin a) (Fin q)) with (Fin (a + q)).
    destruct (IH (a + q)%Q) as (t & Ht & Et).
    exists t. split; [exact Ht|]. rewrite Et. unfold Qsum. ring.
Qed.

Lemma Qsum_linear (f : Q -> Q) (k : Q) qs :
  (forall q, f q == q * k)%Q -> (Qsum (map f qs) == Qsum qs * k)%Q.
Proof.
  intros Hf. induction qs as [|q qs IH]; cbn [map Qsum fold_right].
  - ring.
  - unfold Qsum in IH. rewrite IH, Hf. ring.
Qed.

Lemma Qsum_positive qs :
  Forall (fun q => 0 < q)%Q qs -> qs <> [] -> (0 < Qsum qs)%Q.
Proof.
  induction 1 as [|q qs Hq Hqs IH]; intros Hne; [congruence|].
  cbn [Qsum fold_right]. destruct qs as [|q' qs].
  - simpl. lra.
  - assert (0 < Qsum (q' :: qs))%Q by (apply IH; discriminate).
    unfold Qsum in *. lra.
Qed.

Lemma wordCount_fin slide :
  wordCount slide = Fin (inject_Z (Z.of_nat (length (split_on SP slide)))) /\
  (1 <= inject_Z (Z.of_nat (length (split_on SP slide))))%Q.
Proof.
  split; [reflexivity|].
  pose proof (split_on_nonempty SP slide).
  change 1%Q with (inject_Z 1). rewrite <- Zle_Qle. lia.
Qed.

(** The values of the weights of some slides. *)
Lemma allWeights_values slides :
  slides <> [] ->
  exists ws, finite_as (allWeights slides) ws /\
             Forall (fun w => 0 < w)%Q ws /\ ws <> [] /\ (Qsum ws == 1)%Q.
Proof.
  intros Hne.
  set (counts := map (fun s => inject_Z (Z.of_nat (length (split_on SP s))))
                     slides).
  assert (Hcounts : finite_as (map wordCount slides) counts).
  { unfold counts. clear Hne. induction slides as [|s slides IH];
      constructor; [reflexivity|exact IH]. }
  assert (Hpos : Forall (fun q => 0 < q)%Q counts).
  { unfold counts. apply Forall_forall. intros q Hq.
    apply list_elem_of_In, in_map_iff in Hq as (s & <- & _).
    pose proof (proj2 (wordCount_fin s)). lra. }
  assert (Hcne : counts <> []) by (unfold counts; destruct slides; [congruence|discriminate]).
  destruct (sum_finite _ _ Hcounts 0) as (N & HN & EN).
  assert (HNpos : (0 < N)%Q).
  { pose proof (Qsum_positive counts Hpos Hcne). lra. }
  assert (Htotal : totalWords slides = Fin N).
  { unfold totalWords. rewrite (fold_left_map_add wordCount). exact HN. }
  exists (map (fun q => q / N)%Q counts). split_and!.
  - unfold allWeights, counts. rewrite Htotal. clear -HNpos.
    induction slides as [|s slides IH]; [constructor|].
    cbn [map]. constructor; [|exact IH].
    unfold wordCount, of_Z. rewrite div_fin by exact HNpos. reflexivity.
  - apply Forall_forall. intros w Hw.
    apply list_elem_of_In, in_map_iff in Hw as (q & <- & Hq).
    rewrite Forall_forall in Hpos.
    apply Qlt_shift_div_l; [exact HNpos|].
    specialize (Hpos q (proj2 (list_elem_of_In _ _) Hq)). lra.
  - destruct counts; [congruence|discriminate].
  - rewrite (Qsum_linear (fun q => q / N)%Q (/ N)%Q)
      by (intros; unfold Qdiv; ring).
    assert (E : (Qsum counts == N)%Q) by lra.
    rewrite E. field. lra.
Qed.

Lemma finite_as_map (f : number -> number) (g : Q -> Q) l qs :
  (forall q, f (Fin q) = Fin (g q)) ->
  finite_as l qs -> finite_as (map f l) (map g qs).
Proof.
  intros Hf. induction 1 as [|x q l qs -> _ IH]; cbn [map]; constructor.
  - apply Hf.
  - exact IH.
Qed.

Lemma allSlides_some measureText script :
  exists slides, allSlides measureText script = Some slides /\ slides <> [].
Proof.
  unfold allSlides.
  destruct (slides_loop_total measureText (length (split_on SP script))
                              (split_on SP script) (le_n _))
    as (slides & Hs & _ & Hge).
  exists slides. split; [exact Hs|].
  pose proof (split_on_nonempty SP script) as H.
  assert (Hw : split_on SP script <> [])
    by (destruct (split_on SP script); [simpl in H; lia|discriminate]).
  specialize (Hge Hw). destruct slides; [simpl in Hge; lia|discriminate].
Qed.

Lemma Qsum_member qs (q : Q) :
  Forall (fun x => 0 < x)%Q qs -> In q qs -> (q <= Qsum qs)%Q.
Proof.
  induction 1 as [|x qs Hx Hqs IH]; intros Hin; [destruct Hin|].
  cbn [Qsum fold_right]. destruct Hin as [->|Hin].
  - destruct qs as [|y qs]; [simpl; lra|].
    assert (0 < Qsum (y :: qs))%Q
      by (apply Qsum_positive; [exact Hqs|discriminate]).
    unfold Qsum in *. lra.
  - specialize (IH Hin). unfold Qsum in *. lra.
Qed.

(** X15: for every script, each weight returned by [generateSlides] is a
    finite number greater than 0 and at most 1: the word count of a slide
    over the word count of all slides. *)
Theorem slide_weights_are_shares (measureText : jsstring -> Q)
        (script : jsstring) :
  exists slides ws,
    allSlides measureText script = Some slides /\
    finite_as (allWeights slides) ws /\
    length ws = length slides /\
    Forall (fun w => 0 < w /\ w <= 1)%Q ws.
Proof.
  destruct (allSlides_some measureText script) as (slides & Hs & Hne).
  destruct (allWeights_values slides Hne) as (ws & Hws & Hpos & _ & Hsum).
  exists slides, ws. split_and!; [exact Hs|exact Hws| |].
  - apply Forall2_length in Hws. unfold allWeights in Hws.
    rewrite length_map in Hws. symmetry. exact Hws.
  - apply Forall_forall. intros w Hw. apply list_elem_of_In in Hw.
    pose proof (Qsum_member ws w Hpos Hw) as Hle.
    rewrite Forall_forall in Hpos.
    specialize (Hpos w (proj2 (list_elem_of_In _ _) Hw)). split; lra.
Qed.
(** X17: when the audio duration is zero (the probe reports none, and
    [getAudioDuration] falls back to 0), every final slide duration of
    [generateVideo] is NaN: the scale factor is 0 / 0. *)
Theorem slide_durations_nan_without_audio (measureText : jsstring -> Q)
        (script : jsstring) :
  exists slides,
    allSlides measureText script = Some slides /\
    Forall (fun d => d = NaN)
           (finalSlideDurations (allWeights slides) (or_zero None)).
Proof.
  destruct (allSlides_some measureText script) as (slides & Hs & Hne).
  destruct (allWeights_values slides Hne) as (ws & Hws & _).
  exists slides. split; [exact Hs|].
  unfold finalSlideDurations, slideDurations. cbv zeta.
  change (or_zero None) with (Fin 0).
  assert (Hds : finite_as (map (fun weight => mul (mul weight (Fin 0)) (Fin 1.3))
                               (allWeights slides))
                          (map (fun w => w * 0 * 1.3)%Q ws))
    by (apply finite_as_map; [reflexivity|exact Hws]).
  destruct (sum_finite _ _ Hds 0) as (t & Ht & Et).
  rewrite (Qsum_linear (fun w => w * 0 * 1.3)%Q 0%Q) in Et by (intros; ring).
  change (of_Z 0) with (Fin 0). rewrite Ht.
  assert (Hscale : div (Fin 0) (Fin t) = NaN).
  { unfold div. rewrite (Qcompare_zero t) by lra. reflexivity. }
  rewrite Hscale. apply Forall_forall. intros d Hd.
  apply list_elem_of_In, in_map_iff in Hd as (x & <- & _).
  destruct x; reflexivity.
Qed.

(** ** No word is lost or repeated across the slides *)

Lemma split_join_lines lines :
  lines <> [] ->
  split_on SP (join_lines lines) = flat_map (split_on SP) lines.
Proof.
  induction lines as [|l lines IH]; intros Hne; [congruence|].
  destruct lines as [|l2 lines].
  - simpl. rewrite app_nil_r. reflexivity.
  - change (join_lines (l :: l2 :: lines))
      with (l ++ SP :: join_lines (l2 :: lines)).
    rewrite split_on_app, IH by discriminate. reflexivity.
Qed.

Lemma line_words_join line w :
  plain_word w -> line_words (join_word line w) = line_words line ++ [w].
Proof.
  intros (Hne & Hsp). unfold line_words, join_word.
  destruct line as [|c line].
  - destruct w; [congruence|]. cbn [truthy app]. apply split_on_single, Hsp.
  - cbn [truthy].
    change (truthy ((c :: line) ++ [SP] ++ w)) with true. cbv iota.
    change ((c :: line) ++ [SP] ++ w) with ((c :: line) ++ SP :: w).
    rewrite split_on_app, (split_on_single SP w Hsp). reflexivity.
Qed.

Lemma line_words_word w : plain_word w -> line_words w = [w].
Proof.
  intros (Hne & Hsp). unfold line_words.
  destruct w; [congruence|]. cbn [truthy]. apply split_on_single, Hsp.
Qed.

Section SlideWords.

Variable measureText : jsstring -> Q.

(** Filling a slide places a prefix of the words at hand, in order, on
    its lines and its current line. *)
Lemma fill_slide_words words :
  Forall plain_word words ->
  forall lines cur,
  exists rest,
    flat_map (split_on SP) (fill_slide measureText words lines cur).1
    ++ line_words (fill_slide measureText words lines cur).2 ++ rest
    = flat_map (split_on SP) lines ++ line_words cur ++ words.
Proof.
  induction 1 as [|w words Hw Hwords IH]; intros lines cur; cbn [fill_slide].
  - exists []. reflexivity.
  - destruct (length lines <? maxLines)%nat.
    + destruct (Qle_bool _ availableWidth).
      * destruct (IH lines (join_word cur w)) as (rest & E).
        exists rest. etransitivity; [exact E|].
        rewrite (line_words_join cur w Hw), <- !app_assoc. reflexivity.
      * destruct cur as [|c cur]; cbn [truthy].
        -- destruct (IH (lines ++ [w]) []) as (rest & E).
           exists rest. etransitivity; [exact E|].
           rewrite flat_map_app. cbn [flat_map].
           rewrite (split_on_single SP w (proj2 Hw)), <- !app_assoc.
           reflexivity.
        -- destruct (IH (lines ++ [c :: cur]) w) as (rest & E).
           exists rest. etransitivity; [exact E|].
           rewrite flat_map_app, (line_words_word w Hw).
           cbn [flat_map]. unfold line_words. cbn [truthy].
           rewrite <- !app_assoc. reflexivity.
    + exists (w :: words). reflexivity.
Qed.

Lemma fill_slide_nonempty words :
  Forall plain_word words ->
  forall lines cur, lines <> [] \/ cur <> [] ->
  (fill_slide measureText words lines cur).1 <> [] \/
  (fill_slide measureText words lines cur).2 <> [].
Proof.
  induction 1 as [|w words Hw Hwords IH]; intros lines cur Hne;
    cbn [fill_slide]; [exact Hne|].
  destruct (length lines <? maxLines)%nat; [|exact Hne].
  destruct (Qle_bool _ availableWidth).
  - apply IH. right. unfold join_word. destruct Hw as (Hw & _).
    destruct cur; [exact Hw|discriminate].
  - destruct (truthy cur); apply IH; left; intros E;
      apply app_eq_nil in E as [_ E]; discriminate.
Qed.

(** The lines of a slide hold a prefix of the words at hand, and at
    least one line. *)
Lemma slide_lines_words words :
  Forall plain_word words -> words <> [] ->
  exists rest,
    words = flat_map (split_on SP) (slide_lines measureText words) ++ rest /\
    slide_lines measureText words <> [].
Proof.
  intros Hwords Hne. unfold slide_lines.
  destruct (fill_slide_words words Hwords [] []) as (rest & E).
  assert (Hsome : (fill_slide measureText words [] []).1 <> [] \/
                  (fill_slide measureText words [] []).2 <> []).
  { destruct words as [|w words]; [congruence|].
    inversion Hwords as [|? ? Hw Hrest]; subst. cbn [fill_slide].
    change (length (@nil jsstring) <? maxLines)%nat with true. cbv iota.
    destruct (Qle_bool _ availableWidth).
    - apply fill_slide_nonempty; [exact Hrest|]. right.
      unfold join_word. cbn [truthy app]. exact (proj1 Hw).
    - cbn [truthy]. apply fill_slide_nonempty; [exact Hrest|].
      left. discriminate. }
  destruct (fill_slide measureText words [] []) as [lines cur].
  cbn [fst snd flat_map app] in *. unfold line_words in E at 2.
  cbn [truthy app] in E.
  destruct cur as [|c cur]; cbn [truthy andb].
  - exists rest. unfold line_words in E. cbn [truthy app] in E.
    split; [symmetry; exact E|]. destruct Hsome; congruence.
  - destruct (Nat.ltb_spec (length lines) maxLines) as [Hlt|Hge].
    + exists rest. split.
      * rewrite flat_map_app. cbn [flat_map]. rewrite app_nil_r, <- app_assoc.
        symmetry. exact E.
      * intros Hnil. apply app_eq_nil in Hnil as [_ Hnil]. discriminate.
    + exists (line_words (c :: cur) ++ rest). split; [symmetry; exact E|].
      intros ->. simpl in Hge. vm_compute in Hge. lia.
Qed.

Lemma slides_loop_words fuel : forall words,
  Forall plain_word words -> (length words <= fuel)%nat ->
  exists slides,
    slides_loop measureText fuel words = Some slides /\
    flat_map (split_on SP) slides = words.
Proof.
  induction fuel as [|fuel IH]; intros words Hwords Hlen.
  - destruct words; [|simpl in Hlen; lia]. exists []. split; reflexivity.
  - destruct words as [|w words]; [exists []; split; reflexivity|].
    cbn [slides_loop].
    destruct (slide_lines_words (w :: words) Hwords ltac:(discriminate))
      as (rest & E & Hne).
    set (lines := slide_lines measureText (w :: words)) in *.
    assert (Hused : usedWords lines
                    = length (flat_map (split_on SP) lines))
      by (unfold usedWords; rewrite split_join_lines by exact Hne; reflexivity).
    assert (Hlenw : length (w :: words)
                    = (length (flat_map (split_on SP) lines) + length rest)%nat)
      by (rewrite E at 1; apply length_app).
    assert (Hpos : (1 <= usedWords lines)%nat)
      by (apply split_on_nonempty).
    assert (Hdrop : drop (Nat.min (usedWords lines) (length (w :: words)))
                         (w :: words) = rest).
    { rewrite Nat.min_l by lia. rewrite Hused, E at 1.
      apply drop_app_length. }
    rewrite Hdrop.
    destruct (IH rest) as (slides & Hs & Hflat).
    + rewrite E in Hwords. apply Forall_app in Hwords. tauto.
    + simpl length in *. lia.
    + rewrite Hs. exists (join_lines lines :: slides). split; [reflexivity|].
      cbn [flat_map]. rewrite split_join_lines by exact Hne.
      rewrite Hflat. symmetry. exact E.
Qed.

End SlideWords.

(** X18: when the words of the script are separated by single spaces (no
    empty word), the slides hold every word of the script exactly once and
    in order. *)
Theorem generateSlides_keeps_words (measureText : jsstring -> Q)
        (script : jsstring) :
  Forall (fun w => w <> []) (split_on SP script) ->
  exists slides,
    allSlides measureText script = Some slides /\
    flat_map (split_on SP) slides = split_on SP script.
Proof.
  intros Hne. unfold allSlides. apply slides_loop_words; [|apply le_n].
  pose proof (split_on_no_sep SP script) as Hsp.
  rewrite Forall_forall in Hne, Hsp. apply Forall_forall.
  intros w Hw. split; [apply Hne|apply Hsp]; exact Hw.
Qed.

Lemma generateSlides_keeps_words_witness :
  Forall (fun w => w <> []) (split_on SP (str "aa bb cc")) /\
  exists slides,
    allSlides tenPx (str "aa bb cc") = Some slides /\
    flat_map (split_on SP) slides = split_on SP (str "aa bb cc").
Proof.
  assert (H : Forall (fun w => w <> []) (split_on SP (str "aa bb cc")))
    by (vm_compute; repeat constructor; discriminate).
  split; [exact H|].
  apply (generateSlides_keeps_words tenPx (str "aa bb cc")), H.
Defined.

(** * The route that starts a job *)

(** ** The estimated duration *)

(** X19: the duration estimated from an audio buffer of [n] bytes is the
    whole number of seconds nearest to [n / 16000], halves rounded up:
    it is never negative and [16000 d - 8000 <= n < 16000 d + 8000]. *)
Theorem estimateAudioDuration_nearest_second (buffer : Pipeline.buffer) :
  let n := Z.of_nat (length buffer) in
  let d := estimateAudioDuration buffer in
  (0 <= d /\ 16000 * d - 8000 <= n < 16000 * d + 8000)%Z.
Proof.
  intros n d. subst d. unfold estimateAudioDuration, js_round. fold n.
  set (x := (inject_Z (n * 8) / 128000 + (1 # 2))%Q).
  pose proof (Qfloor_le x) as Hlo. pose proof (Qlt_floor x) as Hhi.
  set (d := Qfloor x) in *.
  assert (Ex : (x == inject_Z (n + 8000) / inject_Z 16000)%Q).
  { unfold x. rewrite !inject_Z_mult, inject_Z_plus.
    change (inject_Z 8) with 8%Q. change (inject_Z 8000) with 8000%Q.
    change (inject_Z 16000) with 16000%Q. field. }
  assert (H16 : (0 < inject_Z 16000)%Q) by reflexivity.
  rewrite Ex in Hlo, Hhi.
  assert (Hlo' : (d * 16000 <= n + 8000)%Z).
  { apply Z.le_ngt. intros Hgt. apply (Qle_not_lt _ _ Hlo).
    apply Qlt_shift_div_r; [exact H16|].
    rewrite <- inject_Z_mult, <- Zlt_Qlt. lia. }
  assert (Hhi' : (n + 8000 < (d + 1) * 16000)%Z).
  { apply Z.lt_nge. intros Hge. apply (Qlt_not_le _ _ Hhi).
    apply Qle_shift_div_l; [exact H16|].
    rewrite <- inject_Z_mult, <- Zle_Qle. lia. }
  assert (0 <= n)%Z by (unfold n; lia). lia.
Qed.

(** ** The handler *)

Lemma valid_script v :
  missing_script v = false -> exists s, v = JString s /\ visible s.
Proof.
  destruct v as [| |b|n|s|]; try (destruct b); try discriminate.
  - destruct n as [q| | |]; simpl; try discriminate.
    unfold missing_script. cbn [not_string]. rewrite orb_true_r. discriminate.
  - unfold missing_script. cbn [falsy not_string]. intros H.
    apply orb_false_iff in H as [_ H]. simpl in H.
    exists s. split; [reflexivity|]. apply not_blank_visible. exact H.
Qed.

Lemma valid_wallet v :
  missing_wallet v = false -> exists w, v = JString w /\ w <> [].
Proof.
  destruct v as [| |b|n|s|]; try (destruct b); try discriminate.
  - unfold missing_wallet. cbn [not_string]. rewrite orb_true_r. discriminate.
  - unfold missing_wallet. cbn [falsy not_string]. rewrite orb_false_r.
    intros H. exists s. split; [reflexivity|].
    destruct s; [discriminate|discriminate].
Qed.

(** The paths through [generateHandler], with the facts that select
    each one left in the context. *)
Ltac handler_paths c b :=
  let Hs := fresh "Hs" in
  let Hw := fresh "Hw" in
  let s := fresh "s" in
  let w := fresh "w" in
  let Es := fresh "Es" in
  let Ew := fresh "Ew" in
  let Hv := fresh "Hv" in
  let Hne := fresh "Hne" in
  let bal := fresh "bal" in
  let j := fresh "j" in
  let e := fresh "e" in
  let Hd := fresh "Hd" in
  let Hj := fresh "Hj" in
  let Hu := fresh "Hu" in
  let He := fresh "He" in
  unfold generateHandler;
  destruct (missing_script (script b)) eqn:Hs;
  [|destruct (missing_wallet (walletAddress b)) eqn:Hw;
    [|destruct (valid_script _ Hs) as (s & Es & Hv);
      destruct (valid_wallet _ Hw) as (w & Ew & Hne);
      rewrite Es, Ew;
      destruct (deductUserPoints c w 2) as [[bal|]|?] eqn:Hd;
      [destruct (createVideoJob c w s (title b)) as [j|?] eqn:Hj;
       [destruct (updateJobStatus c j Generating) as [[]|?] eqn:Hu;
        [destruct (enhanceScript c s) as [e|?] eqn:He|]|]| |]]].

(** X20: every request is answered exactly once, whatever the body and
    whatever the services do. *)
Theorem handler_responds_once (c : services) (b : body) :
  exists r, responses (generateHandler c b) = [r].
Proof.
  handler_paths c b; try (eexists; reflexivity);
    destruct j; eexists; reflexivity.
Qed.

(** X21: credits are deducted only after the body has passed both
    checks: the amount is 2, the wallet address is a non-empty string
    and the script is a string with a character that is not white
    space. *)
Theorem credits_deducted_after_validation (c : services) (b : body)
        (wallet : jsstring) (cost : Z) :
  In (PointsDeducted wallet cost) (generateHandler c b) ->
  cost = 2%Z /\ walletAddress b = JString wallet /\ wallet <> [] /\
  exists s, script b = JString s /\ visible s.
Proof.
  handler_paths c b; try (destruct j); cbn [handler_failed In];
    intros H; repeat (destruct H as [H|H]; try discriminate H);
    try contradiction;
    injection H as <- <-; split_and!; eauto.
Qed.

Lemma credits_deducted_after_validation_witness :
  In (PointsDeducted (str "wallet") 2) (generateHandler (services_up 8) request) /\
  (2 = 2)%Z /\ walletAddress request = JString (str "wallet") /\
  str "wallet" <> [] /\
  exists s, script request = JString s /\ visible s.
Proof.
  assert (H : In (PointsDeducted (str "wallet") 2)
                 (generateHandler (services_up 8) request))
    by (left; reflexivity).
  split; [exact H|].
  exact (credits_deducted_after_validation (services_up 8) request _ _ H).
Defined.

(** X22: the background run is scheduled only at the end of the one
    path on which the deduction, the job creation, the status update
    and the enhancement all resolved; the response sent before it
    carries the same job id, the cost 2 and the balance returned by the
    deduction. *)
Theorem scheduled_after_started (c : services) (b : body)
        (jobId : string) (wallet script' explanation : jsstring) :
  In (Scheduled jobId wallet script' explanation) (generateHandler c b) ->
  exists balance,
    deductUserPoints c wallet 2 = Resolved (Some balance) /\
    createVideoJob c wallet script' (title b) = Resolved jobId /\
    updateJobStatus c jobId Generating = Resolved tt /\
    enhanceScript c script' = Resolved explanation /\
    generateHandler c b =
      [PointsDeducted wallet 2; JobCreated wallet script' (title b);
       StatusUpdated jobId Generating; ScriptEnhanced script';
       Responded (Started jobId 2 balance);
       Scheduled jobId wallet script' explanation].
Proof.
  pose proof (eq_refl (generateHandler c b)) as E. revert E.
  generalize (generateHandler c b) at 1 3 4. intros trace E.
  revert E. handler_paths c b; try (destruct j); cbn [handler_failed];
    intros -> H; cbn [In] in H;
    repeat (destruct H as [H|H]; try discriminate H); try contradiction.
  all: injection H as <- <- <- <-; exists bal; split_and!; auto.
Qed.

Lemma scheduled_after_started_witness :
  In (Scheduled "job-1" (str "wallet") (str "Hello world") (str "Hello world"))
     (generateHandler (services_up 8) request) /\
  exists balance,
    deductUserPoints (services_up 8) (str "wallet") 2
    = Resolved (Some balance) /\
    createVideoJob (services_up 8) (str "wallet") (str "Hello world")
                   (title request) = Resolved "job-1"%string /\
    updateJobStatus (services_up 8) "job-1" Generating = Resolved tt /\
    enhanceScript (services_up 8) (str "Hello world")
    = Resolved (str "Hello world") /\
    generateHandler (services_up 8) request =
      [PointsDeducted (str "wallet") 2;
       JobCreated (str "wallet") (str "Hello world") (title request);
       StatusUpdated "job-1" Generating; ScriptEnhanced (str "Hello world");
       Responded (Started "job-1" 2 balance);
       Scheduled "job-1" (str "wallet") (str "Hello world")
                 (str "Hello world")].
Proof.
  assert (H : In (Scheduled "job-1" (str "wallet") (str "Hello world")
                            (str "Hello world"))
                 (generateHandler (services_up 8) request))
    by (do 5 right; left; reflexivity).
  split; [exact H|].
  exact (scheduled_after_started (services_up 8) request _ _ _ _ H).
Defined.

(** X23: once a job with a non-empty id has been created, the request
    ends in one of two ways.  Either it is started: the only status
    recorded is generating and the response carries the job id.  Or it
    fails: the status failed is recorded after generating, a failed
    webhook is sent, the response is the server error and nothing is
    scheduled. *)
Theorem created_job_started_or_marked_failed (c : services) (b : body)
        (jobId : string) :
  In (StatusUpdated jobId Generating) (generateHandler c b) ->
  jobId <> ""%string ->
  (exists balance,
      status_updates (generateHandler c b) = [(jobId, Generating)] /\
      responses (generateHandler c b) = [Started jobId 2 balance])
  \/ (status_updates (generateHandler c b)
      = [(jobId, Generating); (jobId, Failed)] /\
      In (WebhookSent jobId Failed) (generateHandler c b) /\
      responses (generateHandler c b) = [ServerError] /\
      forall w s e, ~ In (Scheduled jobId w s e) (generateHandler c b)).
Proof.
  handler_paths c b; try (destruct j); cbn [handler_failed];
    intros H Hj0; cbn [In] in H;
    repeat (destruct H as [H|H]; try discriminate H); try contradiction;
    injection H as <-; try (exfalso; apply Hj0; reflexivity).
  - left. exists bal. split; reflexivity.
  - right. split_and!; try reflexivity.
    + cbn [In]. auto 10.
    + intros w0 s0 e0 H. cbn [In] in H.
      repeat (destruct H as [H|H]; try discriminate H). exact H.
  - right. split_and!; try reflexivity.
    + cbn [In]. auto 10.
    + intros w0 s0 e0 H. cbn [In] in H.
      repeat (destruct H as [H|H]; try discriminate H). exact H.
Qed.

Lemma created_job_started_or_marked_failed_witness :
  In (StatusUpdated "job-1" Generating)
     (generateHandler (enhance_down 8) request) /\
  "job-1"%string <> ""%string /\
  ((exists balance,
      status_updates (generateHandler (enhance_down 8) request)
      = [("job-1"%string, Generating)] /\
      responses (generateHandler (enhance_down 8) request)
      = [Started "job-1" 2 balance])
   \/ (status_updates (generateHandler (enhance_down 8) request)
       = [("job-1"%string, Generating); ("job-1"%string, Failed)] /\
       In (WebhookSent "job-1" Failed)
          (generateHandler (enhance_down 8) request) /\
       responses (generateHandler (enhance_down 8) request) = [ServerError] /\
       forall w s e,
         ~ In (Scheduled "job-1" w s e)
              (generateHandler (enhance_down 8) request))).
Proof.
  assert (H : In (StatusUpdated "job-1" Generating)
                 (generateHandler (enhance_down 8) request))
    by (do 2 right; left; reflexivity).
  assert (H0 : "job-1"%string <> ""%string) by discriminate.
  split; [exact H|]. split; [exact H0|].
  exact (created_job_started_or_marked_failed (enhance_down 8) request _ H H0).
Defined.

(** ** The background run *)

(** The paths through [processVideoGeneration]. *)
Ltac processing_paths c jobId walletAddress explanation :=
  let audio := fresh "audio" in
  let video := fresh "video" in
  let videoId := fresh "videoId" in
  let Ha := fresh "Ha" in
  let Hv := fresh "Hv" in
  let Hs := fresh "Hs" in
  let Hu := fresh "Hu" in
  unfold processVideoGeneration, processing_failed;
  destruct (generateSpeechBuffer c explanation) as [audio|?] eqn:Ha;
  [destruct (generateVideoBuffer c _ audio) as [video|?] eqn:Hv;
   [destruct (storeVideo c jobId walletAddress video
                         (estimateAudioDuration audio))
      as [videoId|?] eqn:Hs;
    [destruct (updateJobStatus c jobId Completed) as [[]|?] eqn:Hu|]|]|].

(** X24: a background run always ends with exactly one terminal event,
    completed or error, for its own job, and that event comes last. *)
Theorem processing_ends_once (c : services) (jobId : string)
        (walletAddress script explanation : jsstring) :
  exists before last,
    processVideoGeneration c jobId walletAddress script explanation
    = before ++ [last] /\
    existsb terminal before = false /\
    (last = ErrorEmitted jobId \/
     exists durationSec, last = CompletedEmitted jobId durationSec).
Proof.
  processing_paths c jobId walletAddress explanation;
    cbn [app];
    match goal with
    | |- exists before last, ?tr = _ /\ _ =>
      exists (removelast tr), (List.last tr (ErrorEmitted jobId))
    end;
    cbn [removelast List.last app existsb terminal orb];
    split_and!; try reflexivity; eauto.
Qed.

(** X25: when a background run completes, all four awaited services
    resolved, the duration stored with the video and reported in the
    completed event is the estimate from the audio buffer the speech
    service returned, a completed webhook was sent, and the progress
    emitted went from 0 to 40 and never to 100. *)
Theorem completed_reports_estimate (c : services) (jobId jobId' : string)
        (walletAddress script explanation : jsstring) (durationSec : Z) :
  In (CompletedEmitted jobId' durationSec)
     (processVideoGeneration c jobId walletAddress script explanation) ->
  jobId' = jobId /\
  exists audio video videoId,
    generateSpeechBuffer c explanation = Resolved audio /\
    generateVideoBuffer c script audio = Resolved video /\
    storeVideo c jobId walletAddress video durationSec = Resolved videoId /\
    updateJobStatus c jobId Completed = Resolved tt /\
    durationSec = estimateAudioDuration audio /\
    In (VideoStored jobId durationSec)
       (processVideoGeneration c jobId walletAddress script explanation) /\
    In (WebhookSent jobId Completed)
       (processVideoGeneration c jobId walletAddress script explanation) /\
    progress (processVideoGeneration c jobId walletAddress script explanation)
    = [0; 2; 5; 10; 15; 20; 30; 35; 40]%Z.
Proof.
  pose proof (eq_refl (processVideoGeneration c jobId walletAddress script
                                              explanation)) as E.
  revert E.
  generalize (processVideoGeneration c jobId walletAddress script explanation)
    at 1 3 4 5 6.
  intros trace E. revert E.
  processing_paths c jobId walletAddress explanation;
    cbn [app]; intros -> H; cbn [In] in H;
    repeat (destruct H as [H|H]; try discriminate H); try contradiction.
  injection H as <- <-. split; [reflexivity|].
  exists audio, video, videoId. split_and!; auto; cbn [In]; auto 20.
Qed.

Lemma completed_reports_estimate_witness :
  In (CompletedEmitted "job-1" 3)
     (processVideoGeneration (services_up 8) "job-1" (str "wallet")
                             (str "Hello world") (str "Hello world")) /\
  "job-1"%string = "job-1"%string /\
  exists audio video videoId,
    generateSpeechBuffer (services_up 8) (str "Hello world")
    = Resolved audio /\
    generateVideoBuffer (services_up 8) (str "Hello world") audio
    = Resolved video /\
    storeVideo (services_up 8) "job-1" (str "wallet") video 3
    = Resolved videoId /\
    updateJobStatus (services_up 8) "job-1" Completed = Resolved tt /\
    3%Z = estimateAudioDuration audio /\
    In (VideoStored "job-1" 3)
       (processVideoGeneration (services_up 8) "job-1" (str "wallet")
                               (str "Hello world") (str "Hello world")) /\
    In (WebhookSent "job-1" Completed)
       (processVideoGeneration (services_up 8) "job-1" (str "wallet")
                               (str "Hello world") (str "Hello world")) /\
    progress (processVideoGeneration (services_up 8) "job-1" (str "wallet")
                                     (str "Hello world") (str "Hello world"))
    = [0; 2; 5; 10; 15; 20; 30; 35; 40]%Z.
Proof.
  assert (H : In (CompletedEmitted "job-1" 3)
                 (processVideoGeneration (services_up 8) "job-1" (str "wallet")
                    (str "Hello world") (str "Hello world")))
    by (vm_compute; auto 20).
  split; [exact H|].
  exact (completed_reports_estimate (services_up 8) "job-1" "job-1" _ _ _ 3 H).
Defined.

(** X26: when a background run fails, a failed webhook and an error
    event are sent for the job, but its status is never set to failed:
    no status is recorded at all, unless it was the update to completed
    itself that was rejected. *)
Theorem background_failure_not_recorded (c : services) (jobId jobId' : string)
        (walletAddress script explanation : jsstring) :
  In (ErrorEmitted jobId')
     (processVideoGeneration c jobId walletAddress script explanation) ->
  jobId' = jobId /\
  In (WebhookSent jobId Failed)
     (processVideoGeneration c jobId walletAddress script explanation) /\
  (forall j, ~ In (StatusUpdated j Failed)
               (processVideoGeneration c jobId walletAddress script
                                       explanation)) /\
  (status_updates
     (processVideoGeneration c jobId walletAddress script explanation) = []
   \/ exists e, updateJobStatus c jobId Completed = Rejected e).
Proof.
  processing_paths c jobId walletAddress explanation;
    cbn [app]; intros H; cbn [In] in H;
    repeat (destruct H as [H|H]; try discriminate H); try contradiction;
    injection H as <-;
    (split_and!;
     [reflexivity
     |cbn [In]; auto 20
     |intros j0 H0; cbn [In] in H0;
      repeat (destruct H0 as [H0|H0]; try discriminate H0); exact H0
     |first [left; reflexivity|right; eauto]]).
Qed.

Lemma background_failure_not_recorded_witness :
  In (ErrorEmitted "job-1")
     (processVideoGeneration (speech_down 8) "job-1" (str "wallet")
                             (str "Hello world") (str "Hello world")) /\
  "job-1"%string = "job-1"%string /\
  In (WebhookSent "job-1" Failed)
     (processVideoGeneration (speech_down 8) "job-1" (str "wallet")
                             (str "Hello world") (str "Hello world")) /\
  (forall j, ~ In (StatusUpdated j Failed)
               (processVideoGeneration (speech_down 8) "job-1" (str "wallet")
                                       (str "Hello world")
                                       (str "Hello world"))) /\
  (status_updates
     (processVideoGeneration (speech_down 8) "job-1" (str "wallet")
                             (str "Hello world") (str "Hello world")) = []
   \/ exists e, updateJobStatus (speech_down 8) "job-1" Completed
                = Rejected e).
Proof.
  assert (H : In (ErrorEmitted "job-1")
                 (processVideoGeneration (speech_down 8) "job-1" (str "wallet")
                    (str "Hello world") (str "Hello world")))
    by (vm_compute; auto 20).
  split; [exact H|].
  exact (background_failure_not_recorded (speech_down 8) "job-1" "job-1"
                                         _ _ _ H).
Defined.
